(** * go-lumber: the Lumberjack v2 batch reader and the ACK-able batch

    A shallow embedding of [lj/lj.go] (package [lj]) and of the v2 server
    reader (package [v2]: [reader], [ReadBatch], [readEvents],
    [readJSONEvent], [readCompressed], [readFull]), with the properties
    their specification states about them.

    Conventions.
    - A byte is [Byte.byte]; unsigned integers read off the wire are [N];
      Go's [int] is taken at 64 bits, so [int(uint32)] never wraps.
    - An [io.Reader] is the bytes it will still deliver and what a [Read]
      meets once they are gone.
    - Byte slices live in a heap of backing arrays, so that the reader's
      reusable buffer and the payloads handed out can alias or not.
    - The code points of package [protocol/v2], whose declarations are not
      among the sources, and the zlib reader, a library from outside, are
      parameters of the reader.
    - Calls of the logger are left out. *)

From Stdlib Require Import NArith ZArith Lia.
From Stdlib.Strings Require Import Byte.
From stdpp Require Import base decidable option list.

#[global] Instance byte_eq_dec : EqDecision byte := Byte.byte_eq_dec.
#[global] Instance byte_inhabited : Inhabited byte := populate x00.

(** ** Errors and outcomes *)

(** The error values that travel through the reader. [ErrOther] stands for
    any error value of a collaborator ([zlib.ErrHeader], [zlib.ErrChecksum],
    a connection reset, ...). *)
Inductive error : Set :=
  | EOF
  | ErrUnexpectedEOF
  | ErrProtocolError
  | ErrTimeout
  | ErrOther (code : nat).

#[global] Instance error_eq_dec : EqDecision error.
Proof. solve_decision. Defined.

(** What a call does: it returns a value, returns an error, blocks forever
    on a read, or (in the model only) exhausts the recursion budget. *)
Inductive outcome (A : Type) : Type :=
  | Ok (a : A)
  | Err (e : error)
  | Hang
  | OutOfFuel.
Arguments Ok {A} a.
Arguments Err {A} e.
Arguments Hang {A}.
Arguments OutOfFuel {A}.

(** ** Package io *)
Module io.

(** What a [Read] meets when no byte is left. *)
Inductive ending : Set :=
  | Fails (e : error)
  | Hangs.

Record Reader : Set := mkReader { avail : list byte; fin : ending }.

Definition advance (n : nat) (r : Reader) : Reader :=
  {| avail := drop n (avail r); fin := fin r |}.

(** [io.ReadFull(r, buf)] with [len(buf) = n]: the bytes stored into
    [buf] (all of them on success, the ones that were there on a short
    read) and the reader after the call.  A short read is [io.EOF] when
    nothing was read and [io.ErrUnexpectedEOF] when the end came after
    some bytes; any other error is passed on.  A request for zero bytes
    succeeds without reading. *)
Definition ReadFull (r : Reader) (n : nat) : list byte * outcome Reader :=
  (take n (avail r),
   if decide (n ≤ length (avail r)) then Ok (advance n r)
   else match fin r with
        | Fails EOF =>
            match avail r with
            | [] => Err EOF
            | _ :: _ => Err ErrUnexpectedEOF
            end
        | Fails e => Err e
        | Hangs => Hang
        end).

(** [io.LimitReader(r, n)]: the view of the next [n] bytes of [r].  Its
    [Read] reports [io.EOF] when the limit is reached, and whatever [r]
    reports when [r] runs out first. *)
Definition LimitReader (r : Reader) (n : nat) : Reader :=
  {| avail := take n (avail r);
     fin := if decide (n ≤ length (avail r)) then Fails EOF else fin r |}.

(** The limit reader has no bytes of its own: what is read through it is
    read from [r].  [behind r n limit'] is [r] once the reads through
    [LimitReader r n] have brought the limit reader to [limit']: [r] has
    moved on by the bytes the limit reader has delivered. *)
Definition behind (r : Reader) (n : nat) (limit' : Reader) : Reader :=
  advance (length (avail (LimitReader r n)) - length (avail limit')) r.

End io.

(** ** Package encoding/binary *)
Module binary.

(** A local array of the source is zero-initialised: indexing past the
    bytes that were stored reads zero. *)
Definition at_ (b : list byte) (i : nat) : N := Byte.to_N (b !!! i).

(** [binary.BigEndian.Uint32(b)] *)
Definition Uint32 (b : list byte) : N :=
  N.lor (N.lor (N.lor (at_ b 3) (N.shiftl (at_ b 2) 8))
               (N.shiftl (at_ b 1) 16))
        (N.shiftl (at_ b 0) 24).

Definition byte_of (n : N) : byte :=
  match Byte.of_N (n mod 256) with Some b => b | None => x00 end.

(** The four bytes [binary.BigEndian.PutUint32] writes; used to build
    frames. *)
Definition PutUint32 (n : N) : list byte :=
  [byte_of (N.shiftr n 24); byte_of (N.shiftr n 16);
   byte_of (N.shiftr n 8); byte_of n].

End binary.

(** ** Memory: byte slices over a heap of backing arrays *)
Module mem.

Abbreviation addr := nat.

(** The heap: one backing array per allocation, in allocation order. *)
Abbreviation Heap := (list (list byte)).

(** A [[]byte] value: the backing array it points to ([None] for the nil
    slice) and its length.  Every slice of the program starts at offset 0
    of its array; the capacity is the length of the array. *)
Record slice : Set := mkSlice { ptr : option addr; len : nat }.

Definition nil_slice : slice := {| ptr := None; len := 0 |}.

(** [make([]byte, n, c)]: a fresh zeroed array. *)
Definition make (n c : nat) (h : Heap) : slice * Heap :=
  ({| ptr := Some (length h); len := n |}, h ++ [replicate c x00]).

(** [s[:n]] *)
Definition reslice (s : slice) (n : nat) : slice :=
  {| ptr := ptr s; len := n |}.

(** The bytes a slice shows. *)
Definition load (h : Heap) (s : slice) : list byte :=
  match ptr s with
  | Some a => take (len s) (h !!! a)
  | None => []
  end.

(** Storing [bs] at the front of the array of [s]. *)
Definition store (h : Heap) (s : slice) (bs : list byte) : Heap :=
  match ptr s with
  | Some a => alter (λ arr, bs ++ drop (length bs) arr) a h
  | None => h
  end.

(** [append([]byte(nil), s...)]: nil when [s] is empty, otherwise a fresh
    array holding a copy of the bytes of [s]. *)
Definition clone (h : Heap) (s : slice) : slice * Heap :=
  match len s with
  | 0 => (nil_slice, h)
  | S _ => ({| ptr := Some (length h); len := len s |}, h ++ [load h s])
  end.

End mem.

(** ** Package crypto/x509 *)
Module x509.

(** A certificate, by its DER encoding. *)
Record Certificate : Set := mkCertificate { Raw : list byte }.

#[global] Instance Certificate_inhabited : Inhabited Certificate :=
  populate {| Raw := [] |}.

End x509.

(** ** Package lj *)
Module lj.

(** [json.RawMessage] is a byte slice. *)
Definition RawMessage := mem.slice.

(** A [[]json.RawMessage]: its elements and its capacity. *)
Record RawMessages : Set := mkRawMessages { items : list RawMessage; cap : nat }.

(** [append(evts, e)]; beyond the capacity Go moves to a larger array. *)
Definition append (evts : RawMessages) (e : RawMessage) : RawMessages :=
  {| items := items evts ++ [e];
     cap := Nat.max (cap evts) (S (length (items evts))) |}.

(** The state of a [chan struct{}] that no one sends on. *)
Inductive chan : Set := Open | Closed.

Record Batch : Set := mkBatch {
  Events : RawMessages;
  ack : chan;
  ClientX509Cert : option x509.Certificate
}.

(** [NewBatch]: the channel is made here, open. *)
Definition NewBatch (evts : RawMessages) (clientX509Cert : option x509.Certificate) : Batch :=
  {| Events := evts; ack := Open; ClientX509Cert := clientX509Cert |}.

(** [close(c)]: closing a closed channel is a run-time panic ([None]). *)
Definition close (c : chan) : option chan :=
  match c with
  | Open => Some Closed
  | Closed => None
  end.

(** [ACK]: [close(b.ack)]. *)
Definition ACK (b : Batch) : option Batch :=
  match close (ack b) with
  | Some c => Some {| Events := Events b; ack := c; ClientX509Cert := ClientX509Cert b |}
  | None => None
  end.

(** [Await]: the channel itself. *)
Definition Await (b : Batch) : chan := ack b.

(** A receive [<-c] on a channel no one sends on completes exactly when
    the channel is closed. *)
Definition recv_completes (c : chan) : bool :=
  match c with
  | Open => false
  | Closed => true
  end.

(** What the users of one batch do with it, one step at a time. *)
Inductive action : Set := DoACK | DoAwait.

(** What a step shows: an [ACK] returned or panicked, an observer of
    [Await] saw the completion or is still blocked. *)
Inductive event : Set := Acked | Panicked | Completed | Blocked.

(** The steps of any interleaving of [ACK] calls and [Await] observers on
    one batch; a panic ends the program. *)
Fixpoint run (b : Batch) (acts : list action) : list event :=
  match acts with
  | [] => []
  | DoACK :: rest =>
      match ACK b with
      | Some b' => Acked :: run b' rest
      | None => [Panicked]
      end
  | DoAwait :: rest =>
      (if recv_completes (Await b) then Completed else Blocked) :: run b rest
  end.

End lj.

(** ** Package protocol/v2 *)
Module protocol.

(** The code points of the wire protocol.  The package that declares them
    is not among the sources; the reader takes them as a parameter. *)
Record Codes : Set := mkCodes {
  CodeVersion : byte;
  CodeWindowSize : byte;
  CodeJSONDataFrame : byte;
  CodeCompressed : byte
}.

(** Modelled from the spec: the declarations of package [protocol/v2]
    are not among the sources.  The spec writes the window type as 'W';
    with it go the other code points of Lumberjack v2: version '2', data
    frame 'J', compressed frame 'C'.  The theorems hold for any codes;
    the examples run on these. *)
Definition lumberjack2 : Codes :=
  {| CodeVersion := x32; CodeWindowSize := x57;
     CodeJSONDataFrame := x4a; CodeCompressed := x43 |}.

End protocol.

(** ** Package zlib (interface) *)
Module zlib.

(** What [zlib.NewReader] hands back over a given compressed view:
    - [plain]: the decompressed bytes its [Read] delivers, and what [Read]
      meets after them ([io.EOF] for a well-formed stream);
    - [pulled j]: how many bytes of the compressed view it has taken in by
      the time [j] decompressed bytes were delivered (it reads ahead);
    - [Close j]: what [Close] returns at that point. *)
Record reader : Set := mkReader {
  plain : io.Reader;
  pulled : nat → nat;
  Close : nat → option error
}.

(** [zlib.NewReader]: fails on a bad stream header. *)
Definition NewReaderT : Set := io.Reader → outcome reader.

(** *** A reference decoder for stored blocks

    A decoder for the zlib streams whose deflate blocks are all stored
    (uncompressed) blocks, RFC 1950 and RFC 1951 section 3.2.4, without a
    preset dictionary; it is the instance the examples run on.  Error
    codes of this instance: [ErrHeader], [ErrDictionary], [ErrChecksum],
    a corrupt block, a block type other than stored. *)
Definition ErrHeader : error := ErrOther 0.
Definition ErrDictionary : error := ErrOther 1.
Definition ErrChecksum : error := ErrOther 2.
Definition ErrCorrupt : error := ErrOther 3.
Definition ErrNotStored : error := ErrOther 4.

(** Adler-32 *)
Definition adler32 (data : list byte) : N :=
  let '(a, b) :=
    fold_left (λ '(a, b) x,
                 let a' := ((a + Byte.to_N x) mod 65521)%N in
                 (a', ((b + a') mod 65521)%N))
              data (1%N, 0%N) in
  (b * 65536 + a)%N.

(** What a read of the compressed view meets when it runs dry inside the
    stream. *)
Definition short (view_fin : io.ending) : io.ending :=
  match view_fin with
  | io.Fails EOF => io.Fails ErrUnexpectedEOF
  | other => other
  end.

(** Where a stream ends: in the deflate data, where the decompressor
    meets the end, or in the checksum after the final block, where the
    zlib reader meets it. *)
Inductive place : Set := InData | InTrailer.

(** What the blocks of a stream inflate to:
    - [out]: the bytes they hold;
    - [stop]: what ends them ([io.Fails EOF] after a final block with a
      matching checksum);
    - [used]: the number of bytes of the stream used;
    - [at_]: where [stop] was met;
    - [sync]: the decompressor inflates ahead of the reads, block after
      block, and hands over what it has when it comes to an empty block;
      [sync] is how much of [out] came before the last empty block. *)
Record inflated : Set := mkInflated {
  out : list byte;
  stop : io.ending;
  used : nat;
  at_ : place;
  sync : nat
}.

(** The stored blocks from [bs] on, after the bytes [sofar]; [n] bounds
    the number of blocks. *)
Fixpoint blocks (n : nat) (view_fin : io.ending) (bs : list byte) (sofar : list byte)
    (synced : nat) : inflated :=
  match n with
  | 0 => mkInflated [] (io.Fails ErrCorrupt) 0 InData synced
  | S n' =>
      match bs with
      | [] => mkInflated [] (short view_fin) 0 InData synced
      | b0 :: bs1 =>
          if negb (N.land (N.shiftr (Byte.to_N b0) 1) 3 =? 0)%N then
            mkInflated [] (io.Fails ErrNotStored) 1 InData synced
          else if decide (length bs1 < 4) then
            mkInflated [] (short view_fin) (1 + length bs1) InData synced
          else
            let size := (binary.at_ bs1 0 + 256 * binary.at_ bs1 1)%N in
            let nsize := (binary.at_ bs1 2 + 256 * binary.at_ bs1 3)%N in
            if negb (nsize =? N.lxor size 65535)%N then
              mkInflated [] (io.Fails ErrCorrupt) 5 InData synced
            else
              let body := take (N.to_nat size) (drop 4 bs1) in
              let bs2 := drop (N.to_nat size) (drop 4 bs1) in
              let synced' := if decide (size = 0%N) then length sofar else synced in
              if decide (length body < N.to_nat size) then
                mkInflated body (short view_fin) (5 + length body) InData synced'
              else if N.testbit (Byte.to_N b0) 0 then
                if decide (length bs2 < 4) then
                  mkInflated body (short view_fin) (5 + length body + length bs2)
                    InTrailer synced'
                else if (binary.Uint32 bs2 =? adler32 (sofar ++ body))%N then
                  mkInflated body (io.Fails EOF) (5 + length body + 4) InTrailer synced'
                else
                  mkInflated body (io.Fails ErrChecksum) (5 + length body + 4)
                    InTrailer synced'
              else
                let r := blocks n' view_fin bs2 (sofar ++ body) synced' in
                mkInflated (body ++ out r) (stop r) (5 + length body + used r)
                  (at_ r) (sync r)
      end
  end.

(** The reader over the blocks [bs] that follow a header of [skipped]
    bytes.  The decompressor inflates ahead of the reads, until its
    window of 32768 bytes is full or it comes to an empty block, and
    only then hands the bytes over; [handed] is how much of the output
    it had handed over before it met the end of the stream.
    - A read blocks where the decompressor does: when the view hangs in
      the deflate data, the bytes up to [handed] are delivered; when it
      hangs in the checksum, the read that takes the last byte blocks.
    - [Close] returns the error the decompressor has met, which is so as
      soon as a byte past [handed] was delivered, and an error of the
      checksum once the last byte was delivered.
    - It reads no further than the stream needs. *)
Definition inflate (view_fin : io.ending) (bs : list byte) (skipped : nat) : reader :=
  let r := blocks (S (length bs)) view_fin bs [] 0 in
  let window := N.to_nat (32768 * (N.of_nat (length (out r)) / 32768)) in
  let handed := Nat.max (sync r) window in
  {| plain :=
       {| io.avail :=
            match stop r, at_ r with
            | io.Hangs, InData => take handed (out r)
            | io.Hangs, InTrailer =>
                if decide (handed < length (out r))
                then take (length (out r) - 1) (out r)
                else out r
            | io.Fails _, _ => out r
            end;
          io.fin := stop r |};
     pulled := λ _, skipped + used r;
     Close := λ j,
       match stop r with
       | io.Fails EOF | io.Hangs => None
       | io.Fails err =>
           if decide (handed < j) then
             match at_ r with
             | InData => Some err
             | InTrailer => if decide (length (out r) ≤ j) then Some err else None
             end
           else None
       end |}.

(** [zlib.NewReader] of the reference decoder: it reads the two bytes of
    the header and, when the header announces a preset dictionary, the
    four bytes of its checksum, which has to be that of the empty
    dictionary. *)
Definition stored : NewReaderT :=
  λ view,
    let missing :=
      match short (io.fin view) with
      | io.Fails e => Err e
      | io.Hangs => Hang
      end in
    match io.avail view with
    | cmf :: flg :: bs =>
        if negb (N.land (Byte.to_N cmf) 15 =? 8)%N
           || (7 <? N.shiftr (Byte.to_N cmf) 4)%N
           || negb ((Byte.to_N cmf * 256 + Byte.to_N flg) mod 31 =? 0)%N
        then Err ErrHeader
        else if N.testbit (Byte.to_N flg) 5 then
          if decide (length bs < 4) then missing
          else if (binary.Uint32 bs =? adler32 [])%N then
            Ok (inflate (io.fin view) (drop 4 bs) 6)
          else Err ErrDictionary
        else Ok (inflate (io.fin view) bs 2)
    | _ => missing
    end.

(** The zlib stream that holds [data] in one stored block (for [data]
    shorter than 65536 bytes). *)
Definition store_block (data : list byte) : list byte :=
  let size := N.of_nat (length data) in
  let nsize := N.lxor size 65535 in
  [x78; x01; x01;
   binary.byte_of size; binary.byte_of (N.shiftr size 8);
   binary.byte_of nsize; binary.byte_of (N.shiftr nsize 8)]
  ++ data ++ binary.PutUint32 (adler32 data).

End zlib.

(** ** Package v2: the reader *)
Module v2.

(** What follows the bytes in flight on a connection: the peer closes it
    (a [Read] then fails with that error, [io.EOF] for an orderly close)
    or stays silent. *)
Inductive peer_end : Set := Closes (e : error) | Silent.

(** [net.Conn], as far as the reader looks at it.
    - [VerifiedChains]: [Some] for a [*tls.Conn], with the chains of its
      connection state; [None] for any other connection.
    - [deadline]: the read deadline in force ([None]: none, the zero
      [time.Time]); instants are integers.
    - [deadline_calls]: the arguments of the [SetReadDeadline] calls so far.
    - [deadline_fault]: the error [SetReadDeadline] returns, if it fails.
    - [peer]: what follows the bytes in flight. *)
Record Conn : Set := mkConn {
  VerifiedChains : option (list (list x509.Certificate));
  deadline : option Z;
  deadline_calls : list (option Z);
  deadline_fault : option error;
  peer : peer_end
}.

(** [c.SetReadDeadline(t)] *)
Definition SetReadDeadline (c : Conn) (t : option Z) : option error * Conn :=
  (deadline_fault c,
   {| VerifiedChains := VerifiedChains c;
      deadline := match deadline_fault c with
                  | Some _ => deadline c
                  | None => t
                  end;
      deadline_calls := deadline_calls c ++ [t];
      deadline_fault := deadline_fault c;
      peer := peer c |}).

(** Reading from the connection under the deadline in force: once the
    bytes in flight are read, a closed connection fails, a silent one
    times out at the deadline, and blocks for ever without a deadline. *)
Definition conn_reader (c : Conn) (bytes : list byte) : io.Reader :=
  {| io.avail := bytes;
     io.fin := match peer c with
               | Closes e => io.Fails e
               | Silent =>
                   match deadline c with
                   | Some _ => io.Fails ErrTimeout
                   | None => io.Hangs
                   end
               end |}.

(** [type jsonDecoder func([]byte, interface{}) error] *)
Definition jsonDecoder : Set := list byte → option error.

(** [type reader struct].  The field [in] (the buffered view of [conn])
    is the byte sequence passed to and returned by [ReadBatch]: after an
    error the position in the stream is not defined, and none is
    returned. *)
Record reader : Set := mkReader {
  conn : Conn;
  timeout : Z;
  decoder : jsonDecoder;
  buf : mem.slice
}.

(** Assignments to the fields [r.conn] and [r.buf]. *)
Definition set_conn (r : reader) (c : Conn) : reader :=
  {| conn := c; timeout := timeout r; decoder := decoder r; buf := buf r |}.

Definition set_buf (r : reader) (b : mem.slice) : reader :=
  {| conn := conn r; timeout := timeout r; decoder := decoder r; buf := b |}.

(** The same reader around another decoder, and the same connection
    with another outcome of the TLS handshake, to compare runs. *)
Definition set_decoder (r : reader) (d : jsonDecoder) : reader :=
  {| conn := conn r; timeout := timeout r; decoder := d; buf := buf r |}.

Definition set_chains (c : Conn) (chains : option (list (list x509.Certificate))) : Conn :=
  {| VerifiedChains := chains; deadline := deadline c;
     deadline_calls := deadline_calls c; deadline_fault := deadline_fault c;
     peer := peer c |}.

(** [newReader]; [make([]byte, 0, 64)] allocates. *)
Definition newReader (c : Conn) (to : Z) (jsonDecoder : jsonDecoder) (h : mem.Heap) : reader * mem.Heap :=
  let (b, h') := mem.make 0 64 h in
  ({| conn := c; timeout := to; decoder := jsonDecoder; buf := b |}, h').

(** A method of [*reader] runs on the reader and the heap. *)
Definition state : Set := reader * mem.Heap.
Definition M (A : Type) : Type := state → outcome A * state.

Definition ret {A} (a : A) : M A := λ s, (Ok a, s).
Definition throw {A} (e : error) : M A := λ s, (Err e, s).
Definition lift {A} (o : outcome A) : M A := λ s, (o, s).
Definition bind {A B} (m : M A) (k : A → M B) : M B :=
  λ s, match m s with
       | (Ok a, s') => k a s'
       | (Err e, s') => (Err e, s')
       | (Hang, s') => (Hang, s')
       | (OutOfFuel, s') => (OutOfFuel, s')
       end.

Notation "'do' x <~ m ; k" := (bind m (λ x, k))
  (at level 10, x name, m at level 100, k at level 200).
Notation "'do' ' p <~ m ; k" := (bind m (λ x, let 'p := x in k))
  (at level 10, p pattern, m at level 100, k at level 200).

(** [readFull] into a local array: the array after the call and the
    reader after it. *)
Definition readFull (inp : io.Reader) (n : nat) : outcome (list byte * io.Reader) :=
  match io.ReadFull inp n with
  | (got, Ok rest) => Ok (got, rest)
  | (_, Err e) => Err e
  | (_, Hang) => Hang
  | (_, OutOfFuel) => OutOfFuel
  end.

(** [readFull] into a slice on the heap: the bytes that arrived are
    stored also when the read falls short. *)
Definition readFullAt (inp : io.Reader) (b : mem.slice) : M io.Reader :=
  λ s, let (r, h) := s in
       let (got, res) := io.ReadFull inp (mem.len b) in
       (res, (r, mem.store h b got)).

(** [r.buf = make([]byte, n)] when [n > len(r.buf)] *)
Definition growBuf (n : nat) : M unit :=
  λ s, let (r, h) := s in
       if decide (mem.len (buf r) < n) then
         let (b, h') := mem.make n n h in
         (Ok tt, (set_buf r b, h'))
       else (Ok tt, s).

Definition getBuf : M mem.slice := λ s, (Ok (buf (fst s)), s).

(** [append([]byte(nil), buf...)] *)
Definition copyOut (b : mem.slice) : M mem.slice :=
  λ s, let (r, h) := s in
       let (e, h') := mem.clone h b in (Ok e, (r, h')).

(** [readJSONEvent] *)
Definition readJSONEvent (inp : io.Reader) : M (lj.RawMessage * io.Reader) :=
  do '(hdr, in1) <~ lift (readFull inp 8) ;
  let payloadSz := N.to_nat (binary.Uint32 (drop 4 hdr)) in
  do _ <~ growBuf payloadSz ;
  do rbuf <~ getBuf ;
  let b := mem.reslice rbuf payloadSz in
  do in2 <~ readFullAt in1 b ;
  do event <~ copyOut b ;
  ret (event, in2).

(** The loop that empties the limit reader, sixteen bytes at a time, until
    its [Read] returns an error: [io.EOF] ends it, any other error is
    returned.  The result is the limit reader as the loop leaves it; [n]
    bounds the number of rounds. *)
Fixpoint drain (n : nat) (limit : io.Reader) : outcome io.Reader :=
  match io.avail limit with
  | [] =>
      match io.fin limit with
      | io.Fails EOF => Ok limit
      | io.Fails e => Err e
      | io.Hangs => Hang
      end
  | _ :: _ =>
      match n with
      | 0 => OutOfFuel
      | S n' => drain n' (io.advance 16 limit)
      end
  end.

Section Reader.

Context (codes : protocol.Codes) (NewReader : zlib.NewReaderT).

(** [readCompressed], over the [readEvents] it calls back.  The reads
    go through the limit reader: those of the zlib reader, which has
    taken in [pulled j] bytes when [readEvents] returns, and then those
    of the loop that empties it.  The stream [in] is left where these
    reads have brought it. *)
Definition readCompressedWith
    (readEvents : io.Reader → lj.RawMessages → M (lj.RawMessages * io.Reader))
    (inp : io.Reader) (events : lj.RawMessages) : M (lj.RawMessages * io.Reader) :=
  do '(hdr, in1) <~ lift (readFull inp 4) ;
  let payloadSz := N.to_nat (binary.Uint32 hdr) in
  let limit := io.LimitReader in1 payloadSz in
  do reader <~ lift (NewReader limit) ;
  do '(events', rest) <~ readEvents (zlib.plain reader) events ;
  let j := length (io.avail (zlib.plain reader)) - length (io.avail rest) in
  match zlib.Close reader j with
  | Some e => throw e
  | None =>
      let unread := io.advance (zlib.pulled reader j) limit in
      do drained <~ lift (drain (length (io.avail unread)) unread) ;
      ret (events', io.behind in1 payloadSz drained)
  end.

(** [readEvents]; [fuel] bounds the loop rounds and the nesting of
    compressed frames together. *)
Fixpoint readEvents (fuel : nat) (inp : io.Reader) (events : lj.RawMessages)
    {struct fuel} : M (lj.RawMessages * io.Reader) :=
  if decide (length (lj.items events) < lj.cap events) then
    match fuel with
    | 0 => lift OutOfFuel
    | S fuel' =>
        do '(hdr, in1) <~ lift (readFull inp 2) ;
        if decide (hdr !!! 0 ≠ protocol.CodeVersion codes) then
          throw ErrProtocolError
        else if decide (hdr !!! 1 = protocol.CodeJSONDataFrame codes) then
          do '(event, in2) <~ readJSONEvent in1 ;
          readEvents fuel' in2 (lj.append events event)
        else if decide (hdr !!! 1 = protocol.CodeCompressed codes) then
          do '(readEvents', in2) <~ readCompressedWith (readEvents fuel') in1 events ;
          readEvents fuel' in2 readEvents'
        else
          throw ErrProtocolError
    end
  else ret (events, inp).

(** [readCompressed] *)
Definition readCompressed (fuel : nat) : io.Reader → lj.RawMessages → M (lj.RawMessages * io.Reader) :=
  readCompressedWith (readEvents fuel).

(** The certificate [ReadBatch] attaches: the first certificate of the
    only verified chain of a TLS connection, when that chain has two. *)
Definition clientX509Cert (c : Conn) : option x509.Certificate :=
  match VerifiedChains c with
  | Some verifiedChains =>
      if decide (length verifiedChains = 1 ∧ length (verifiedChains !!! 0) = 2)
      then Some ((verifiedChains !!! 0) !!! 0)
      else None
  | None => None
  end.

Definition getConn : M Conn := λ s, (Ok (conn (fst s)), s).
Definition getTimeout : M Z := λ s, (Ok (timeout (fst s)), s).

(** [r.conn.SetReadDeadline(t)] as a step of the reader. *)
Definition setReadDeadline (t : option Z) : M (option error) :=
  λ s, let (r, h) := s in
       let (err, c) := SetReadDeadline (conn r) t in
       (Ok err, (set_conn r c, h)).

(** [ReadBatch].  [now] is what [time.Now()] returns; [wire] is the bytes
    still to be read from [r.in].  The result is the batch ([None] for
    the nil batch of a zero window) and the bytes left unread.  The test
    [events == nil] after [readEvents] adds nothing to [err != nil]: the
    events start from a slice made with a capacity that is not zero, and
    [readEvents] returns the slice it was given, or a longer one. *)
Definition ReadBatch (fuel : nat) (now : Z) (wire : list byte) : M (option lj.Batch * list byte) :=
  do _ <~ setReadDeadline None ;
  do c <~ getConn ;
  do '(win, in1) <~ lift (readFull (conn_reader c wire) 6) ;
  if bool_decide (win !!! 0 ≠ protocol.CodeVersion codes)
     && bool_decide (win !!! 1 ≠ protocol.CodeWindowSize codes) then
    throw ErrProtocolError
  else
    let count := N.to_nat (binary.Uint32 (drop 2 win)) in
    if decide (count = 0) then ret (None, io.avail in1)
    else
      do to <~ getTimeout ;
      do err <~ setReadDeadline (Some (now + to)%Z) ;
      match err with
      | Some e => throw e
      | None =>
          do c' <~ getConn ;
          do '(events, in2) <~ readEvents fuel (conn_reader c' (io.avail in1))
                              {| lj.items := []; lj.cap := count |} ;
          ret (Some (lj.NewBatch events (clientX509Cert c')), io.avail in2)
      end.

End Reader.

End v2.

(** ** Frames on the wire *)
Module frames.

Section Frames.

Context (codes : protocol.Codes).

(** The window-size frame. *)
Definition window (count : N) : list byte :=
  [protocol.CodeVersion codes; protocol.CodeWindowSize codes]
  ++ binary.PutUint32 count.

(** A data frame: sequence number, payload length, payload. *)
Definition data (seq : N) (payload : list byte) : list byte :=
  [protocol.CodeVersion codes; protocol.CodeJSONDataFrame codes]
  ++ binary.PutUint32 seq
  ++ binary.PutUint32 (N.of_nat (length payload))
  ++ payload.

(** A compressed frame around [payload], the compressed bytes. *)
Definition compressed (payload : list byte) : list byte :=
  [protocol.CodeVersion codes; protocol.CodeCompressed codes]
  ++ binary.PutUint32 (N.of_nat (length payload))
  ++ payload.

(** Events as data frames, one after the other. *)
Definition data_frames (events : list (N * list byte)) : list byte :=
  concat (map (λ e, data (fst e) (snd e)) events).

End Frames.

End frames.

(** The payloads of a batch, read through the heap. *)
Definition payloads (h : mem.Heap) (b : lj.Batch) : list (list byte) :=
  map (mem.load h) (lj.items (lj.Events b)).

(** ** Predicates of the statements *)

(** Two states that agree on what the frame readers work on: the buffer
    and the heap. *)
Definition sim (s1 s2 : v2.state) : Prop :=
  v2.buf (fst s1) = v2.buf (fst s2) ∧ snd s1 = snd s2.

(** The fields of the reader a step leaves alone. *)
Definition unchanged (s s' : v2.state) : Prop :=
  v2.conn (fst s') = v2.conn (fst s)
  ∧ v2.timeout (fst s') = v2.timeout (fst s)
  ∧ v2.decoder (fst s') = v2.decoder (fst s).

(** A step that reads and writes nothing of the reader but its buffer,
    and the heap. *)
Definition local {A} (m : v2.M A) : Prop :=
  ∀ s1 s2, sim s1 s2 →
    fst (m s1) = fst (m s2)
    ∧ sim (snd (m s1)) (snd (m s2))
    ∧ unchanged s1 (snd (m s1)).

(** The buffer of the reader shows bytes of an array of the heap. *)
Definition wf (s : v2.state) : Prop :=
  match mem.ptr (v2.buf (fst s)) with
  | Some a => a < length (snd s) ∧ mem.len (v2.buf (fst s)) ≤ length (snd s !!! a)
  | None => mem.len (v2.buf (fst s)) = 0
  end.

(** A payload in the hands of a caller: nil, or bytes of an array of the
    heap that is not the array of the buffer. *)
Definition handed_out (s : v2.state) (e : mem.slice) : Prop :=
  match mem.ptr e with
  | Some a => a < length (snd s) ∧ mem.ptr (v2.buf (fst s)) ≠ Some a
  | None => True
  end.

(** From [s] to [s']: the heap has grown, the arrays it had are as they
    were except the array of the buffer, the buffer is where it was or in
    an array that did not exist, and it is not shorter. *)
Definition extends (s s' : v2.state) : Prop :=
  length (snd s) ≤ length (snd s')
  ∧ (∀ a, a < length (snd s) → mem.ptr (v2.buf (fst s)) ≠ Some a →
          snd s' !!! a = snd s !!! a)
  ∧ (mem.ptr (v2.buf (fst s')) = mem.ptr (v2.buf (fst s))
     ∨ ∃ a, mem.ptr (v2.buf (fst s')) = Some a ∧ length (snd s) ≤ a)
  ∧ mem.len (v2.buf (fst s)) ≤ mem.len (v2.buf (fst s')).

(** A payload made between [s] and [s']: in the hands of the caller at
    [s'], in an array that did not exist at [s], and no longer than the
    buffer at [s']. *)
Definition new_event (s s' : v2.state) (e : mem.slice) : Prop :=
  handed_out s' e
  ∧ mem.len e ≤ mem.len (v2.buf (fst s'))
  ∧ (∀ a, mem.ptr e = Some a → length (snd s) ≤ a).

(** What a run of the frame loop from [s] to [s'] does to the events:
    payloads made on the way are added at the end, within the capacity,
    which is reached when the loop returns. *)
Definition events_post (s s' : v2.state) (evs evs' : lj.RawMessages) : Prop :=
  ∃ new,
    lj.items evs' = lj.items evs ++ new
    ∧ lj.cap evs' = lj.cap evs
    ∧ Forall (new_event s s') new
    ∧ (length (lj.items evs) ≤ lj.cap evs → length (lj.items evs') = lj.cap evs).

(** A frame loop that keeps the state well formed, only lets it grow,
    and treats the events as above. *)
Definition sound_loop
    (rec : io.Reader → lj.RawMessages → v2.M (lj.RawMessages * io.Reader)) : Prop :=
  ∀ inp evs s o s',
    wf s → rec inp evs s = (o, s') →
    wf s' ∧ extends s s'
    ∧ ∀ evs' rest, o = Ok (evs', rest) → events_post s s' evs evs'.

(** What a call of [ReadBatch] hands to its caller: the payloads of the
    batch, none for the nil batch. *)
Definition received (res : outcome (option lj.Batch * list byte) * v2.state)
    : outcome (list (list byte)) :=
  match fst res with
  | Ok (Some b, _) => Ok (payloads (snd (snd res)) b)
  | Ok (None, _) => Ok []
  | Err e => Err e
  | Hang => Hang
  | OutOfFuel => OutOfFuel
  end.

Section Streams.

Context (codes : protocol.Codes) (NewReader : zlib.NewReaderT).

(** [payload] is a compressed view the zlib reader opens, whose
    decompressed bytes start with [inner], and whose [Close] reports no
    error once [inner] has been read. *)
Definition inflates (payload inner : list byte) : Prop :=
  ∃ z junk,
    NewReader {| io.avail := payload; io.fin := io.Fails EOF |} = Ok z
    ∧ io.avail (zlib.plain z) = inner ++ junk
    ∧ zlib.Close z (length inner) = None.

(** The streams that deliver given payloads in some sequence of data
    frames and compressed frames, compressed frames holding such a
    sequence in turn. *)
Inductive delivers : list byte → list (list byte) → Prop :=
  | delivers_nil : delivers [] []
  | delivers_data seq p bs evs :
      (seq < 2 ^ 32)%N → (N.of_nat (length p) < 2 ^ 32)%N →
      delivers bs evs →
      delivers (frames.data codes seq p ++ bs) (p :: evs)
  | delivers_compressed payload inner evs1 bs evs2 :
      (N.of_nat (length payload) < 2 ^ 32)%N →
      inflates payload inner →
      delivers inner evs1 →
      delivers bs evs2 →
      delivers (frames.compressed codes payload ++ bs) (evs1 ++ evs2).

(** The streams among them in which a compressed frame comes last and
    holds all the events still due: [completes n bs evs] when [bs]
    delivers the payloads [evs], at least one, in [n] frames, every
    compressed frame being the last frame of the stream it is in. *)
Inductive completes : nat → list byte → list (list byte) → Prop :=
  | completes_last seq p :
      (seq < 2 ^ 32)%N → (N.of_nat (length p) < 2 ^ 32)%N →
      completes 1 (frames.data codes seq p) [p]
  | completes_data n seq p bs evs :
      (seq < 2 ^ 32)%N → (N.of_nat (length p) < 2 ^ 32)%N →
      completes n bs evs →
      completes (S n) (frames.data codes seq p ++ bs) (p :: evs)
  | completes_compressed n payload inner evs :
      (N.of_nat (length payload) < 2 ^ 32)%N →
      inflates payload inner →
      completes n inner evs →
      completes (S n) (frames.compressed codes payload) evs.

End Streams.

(** ** Examples *)
Module example.

Definition L : protocol.Codes := protocol.lumberjack2.

(** A plain connection with a silent peer and a TLS connection whose
    handshake verified one chain of two certificates. *)
Definition plain_conn : v2.Conn :=
  {| v2.VerifiedChains := None; v2.deadline := Some 5%Z;
     v2.deadline_calls := []; v2.deadline_fault := None;
     v2.peer := v2.Silent |}.

Definition leaf : x509.Certificate := {| x509.Raw := [x30; x01] |}.
Definition issuer : x509.Certificate := {| x509.Raw := [x30; x02] |}.

Definition tls_conn : v2.Conn :=
  v2.set_chains plain_conn (Some [[leaf; issuer]]).

(** A connection the peer closes after the bytes in flight. *)
Definition closing_conn : v2.Conn :=
  {| v2.VerifiedChains := None; v2.deadline := None;
     v2.deadline_calls := []; v2.deadline_fault := None;
     v2.peer := v2.Closes EOF |}.

Definition accept_all : v2.jsonDecoder := λ _, None.
Definition reject_all : v2.jsonDecoder := λ _, Some (ErrOther 9).

(** Fresh readers, thirty time units of timeout. *)
Definition fresh (c : v2.Conn) : v2.state := v2.newReader c 30 accept_all [].

(** Two payloads: [{"a":1}] and [{"b":22}]. *)
Definition a1 : list byte := [x7b; x22; x61; x22; x3a; x31; x7d].
Definition b22 : list byte := [x7b; x22; x62; x22; x3a; x32; x32; x7d].

(** Both as data frames; both in one compressed frame, with two bytes of
    padding after the zlib stream; the first compressed and the second
    plain; the first plain and the second compressed. *)
Definition two_plain : list byte :=
  frames.data L 1 a1 ++ frames.data L 2 b22.

Definition two_compressed : list byte :=
  frames.compressed L (zlib.store_block two_plain ++ [x00; x00]).

Definition compressed_then_plain : list byte :=
  frames.compressed L (zlib.store_block (frames.data L 1 a1))
  ++ frames.data L 2 b22.

Definition plain_then_compressed : list byte :=
  frames.data L 1 a1
  ++ frames.compressed L (zlib.store_block (frames.data L 2 b22)).

(** A compressed frame that declares 100 bytes on a connection that ends
    after the zlib stream. *)
Definition truncated : list byte :=
  [protocol.CodeVersion L; protocol.CodeCompressed L]
  ++ binary.PutUint32 100
  ++ zlib.store_block (frames.data L 1 a1).

End example.

(** ** Examples of failures *)
Module faults.

(** A connection that refuses to set a deadline. *)
Definition faulty_conn : v2.Conn :=
  {| v2.VerifiedChains := None; v2.deadline := None;
     v2.deadline_calls := []; v2.deadline_fault := Some (ErrOther 7);
     v2.peer := v2.Silent |}.

(** The zlib stream of [data] in one stored block, with a checksum of
    four zero bytes. *)
Definition bad_checksum (data : list byte) : list byte :=
  take (7 + length data) (zlib.store_block data) ++ [x00; x00; x00; x00].

End faults.

(** ** The spare array *)

(** The array at [a] is 64 zero bytes, and if the buffer of the reader
    lies in it, the buffer has no length. *)
Definition spare (a : nat) (s : v2.state) : Prop :=
  a < length (snd s)
  ∧ snd s !!! a = replicate 64 x00
  ∧ (mem.ptr (v2.buf (fst s)) = Some a → mem.len (v2.buf (fst s)) = 0).

(** * Properties *)

(** ** Big-endian integers and full reads *)

Lemma to_N_byte_of (n : N) : Byte.to_N (binary.byte_of n) = (n mod 256)%N.
Proof.
  unfold binary.byte_of.
  destruct (Byte.of_N (n mod 256)) as [b|] eqn:E.
  - by apply Byte.to_of_N.
  - apply Byte.of_N_None_iff in E.
    pose proof (N.mod_upper_bound n 256). lia.
Qed.

Lemma testbit_low_byte (n i : N) :
  N.testbit (n mod 256) i = N.testbit n i && (i <? 8)%N.
Proof.
  change 256%N with (2 ^ 8)%N.
  destruct (i <? 8)%N eqn:E.
  - apply N.ltb_lt in E. rewrite N.mod_pow2_bits_low by done.
    by rewrite andb_true_r.
  - apply N.ltb_ge in E. rewrite N.mod_pow2_bits_high by done.
    by rewrite andb_false_r.
Qed.

Lemma testbit_shiftl_byte (x k i : N) :
  N.testbit (N.shiftl x k) i = (k <=? i)%N && N.testbit x (i - k).
Proof.
  destruct (k <=? i)%N eqn:E.
  - apply N.leb_le in E. by rewrite N.shiftl_spec_high'.
  - apply N.leb_gt in E. by rewrite N.shiftl_spec_low.
Qed.

Lemma testbit_above (n i : N) : (n < 2 ^ 32)%N → (32 <= i)%N → N.testbit n i = false.
Proof.
  intros Hn Hi. destruct (N.eq_dec n 0%N) as [->|Hz]; [apply N.bits_0|].
  apply N.bits_above_log2. apply N.log2_lt_pow2; [lia|].
  eapply N.lt_le_trans; [exact Hn|]. apply N.pow_le_mono_r; lia.
Qed.

Ltac nbool :=
  repeat match goal with
    | |- context [(?a <=? ?b)%N] =>
        first [ rewrite (proj2 (N.leb_le a b)) by lia
              | rewrite (proj2 (N.leb_gt a b)) by lia ]
    | |- context [(?a <? ?b)%N] =>
        first [ rewrite (proj2 (N.ltb_lt a b)) by lia
              | rewrite (proj2 (N.ltb_ge a b)) by lia ]
    end.

Lemma Uint32_PutUint32 (n : N) (rest : list byte) :
  (n < 2 ^ 32)%N → binary.Uint32 (binary.PutUint32 n ++ rest) = n.
Proof.
  intros Hn. unfold binary.Uint32, binary.at_, binary.PutUint32.
  cbn [app lookup_total list_lookup_total].
  rewrite !to_N_byte_of.
  apply N.bits_inj. intros i.
  rewrite !N.lor_spec, !testbit_shiftl_byte, !testbit_low_byte, !N.shiftr_spec'.
  destruct (N.lt_ge_cases i 8) as [H8|H8];
    [|destruct (N.lt_ge_cases i 16) as [H16|H16];
      [|destruct (N.lt_ge_cases i 24) as [H24|H24];
        [|destruct (N.lt_ge_cases i 32) as [H32|H32]]]];
    nbool; cbn [andb orb]; rewrite ?andb_true_r, ?andb_false_r, ?orb_false_r.
  all: cbn [orb].
  - done.
  - f_equal; lia.
  - f_equal; lia.
  - f_equal; lia.
  - symmetry. by apply testbit_above.
Qed.

Lemma ReadFull_app (bs rest : list byte) (e : io.ending) (n : nat) :
  length bs = n →
  io.ReadFull {| io.avail := bs ++ rest; io.fin := e |} n
  = (bs, Ok {| io.avail := rest; io.fin := e |}).
Proof.
  intros <-. unfold io.ReadFull, io.advance. cbn [io.avail io.fin].
  rewrite take_app_length, drop_app_length.
  rewrite decide_True; [done|]. rewrite length_app. lia.
Qed.

Lemma readFull_app (bs rest : list byte) (e : io.ending) (n : nat) :
  length bs = n →
  v2.readFull {| io.avail := bs ++ rest; io.fin := e |} n
  = Ok (bs, {| io.avail := rest; io.fin := e |}).
Proof. intros H. unfold v2.readFull. by rewrite ReadFull_app. Qed.

Lemma length_PutUint32 (n : N) : length (binary.PutUint32 n) = 4.
Proof. done. Qed.


Lemma Uint32_PutUint32_only (n : N) :
  (n < 2 ^ 32)%N → binary.Uint32 (binary.PutUint32 n) = n.
Proof.
  intros H. rewrite <-(app_nil_r (binary.PutUint32 n)).
  by apply Uint32_PutUint32.
Qed.

(** ** The frame readers work on the buffer and the heap alone *)

Section Locality.

Context (codes : protocol.Codes) (NewReader : zlib.NewReaderT).

Lemma unchanged_refl s : unchanged s s.
Proof. done. Qed.

Lemma unchanged_trans s1 s2 s3 : unchanged s1 s2 → unchanged s2 s3 → unchanged s1 s3.
Proof. unfold unchanged. intros (?&?&?) (?&?&?). split_and!; congruence. Qed.

Lemma local_ret {A} (a : A) : local (v2.ret a).
Proof. intros s1 s2 H. by split_and!. Qed.

Lemma local_throw {A} (e : error) : local (@v2.throw A e).
Proof. intros s1 s2 H. by split_and!. Qed.

Lemma local_lift {A} (o : outcome A) : local (v2.lift o).
Proof. intros s1 s2 H. by split_and!. Qed.

Lemma local_bind {A B} (m : v2.M A) (k : A → v2.M B) :
  local m → (∀ a, local (k a)) → local (v2.bind m k).
Proof.
  intros Hm Hk s1 s2 Hs. unfold v2.bind.
  destruct (Hm s1 s2 Hs) as (Ho & Hs' & Hu).
  destruct (m s1) as [o1 t1], (m s2) as [o2 t2]. simpl in *. subst o2.
  destruct o1 as [a| | |]; try by split_and!.
  destruct (Hk a t1 t2 Hs') as (? & ? & ?).
  split_and!; [done..|]. by eapply unchanged_trans.
Qed.

Lemma local_growBuf n : local (v2.growBuf n).
Proof.
  intros [r1 h1] [r2 h2] [Hb Hh]. simpl in *. subst h2. unfold v2.growBuf.
  rewrite <-Hb. unfold mem.make. case_decide; simpl; repeat split; simpl; congruence.
Qed.

Lemma local_getBuf : local v2.getBuf.
Proof.
  intros [r1 h1] [r2 h2] [Hb Hh]. simpl in *.
  repeat split; simpl; congruence.
Qed.

Lemma local_readFullAt inp b : local (v2.readFullAt inp b).
Proof.
  intros [r1 h1] [r2 h2] [Hb Hh]. simpl in *. subst h2. unfold v2.readFullAt.
  destruct (io.ReadFull inp (mem.len b)). by split_and!.
Qed.

Lemma local_copyOut b : local (v2.copyOut b).
Proof.
  intros [r1 h1] [r2 h2] [Hb Hh]. simpl in *. subst h2. unfold v2.copyOut.
  destruct (mem.clone h1 b). by split_and!.
Qed.

Lemma local_readJSONEvent inp : local (v2.readJSONEvent inp).
Proof.
  unfold v2.readJSONEvent.
  apply local_bind; [apply local_lift|]. intros [hdr in1].
  apply local_bind; [apply local_growBuf|]. intros _.
  apply local_bind; [apply local_getBuf|]. intros rbuf.
  apply local_bind; [apply local_readFullAt|]. intros in2.
  apply local_bind; [apply local_copyOut|]. intros event.
  apply local_ret.
Qed.

Lemma local_readCompressedWith rec inp events :
  (∀ i e, local (rec i e)) →
  local (v2.readCompressedWith NewReader rec inp events).
Proof.
  intros Hrec. unfold v2.readCompressedWith.
  apply local_bind; [apply local_lift|]. intros [hdr in1].
  apply local_bind; [apply local_lift|]. intros reader.
  apply local_bind; [apply Hrec|]. intros [events' rest].
  destruct (zlib.Close _ _); [apply local_throw|].
  apply local_bind; [apply local_lift|]. intros drained. apply local_ret.
Qed.

Lemma local_readEvents fuel inp events :
  local (v2.readEvents codes NewReader fuel inp events).
Proof.
  revert inp events. induction fuel as [|fuel IH]; intros inp events; simpl.
  - case_decide; [apply local_lift | apply local_ret].
  - case_decide; [|apply local_ret].
    apply local_bind; [apply local_lift|]. intros [hdr in1].
    case_decide; [apply local_throw|].
    case_decide.
    { apply local_bind; [apply local_readJSONEvent|]. intros [event in2]. apply IH. }
    case_decide; [|apply local_throw].
    apply local_bind; [by apply local_readCompressedWith|].
    intros [ev in2]. apply IH.
Qed.

(** The frame readers leave the connection, the timeout and the decoder
    of the reader as they were. *)
Lemma readEvents_unchanged fuel inp events s :
  unchanged s (snd (v2.readEvents codes NewReader fuel inp events s)).
Proof. by apply (local_readEvents fuel inp events s s). Qed.

End Locality.

(** ** Fuel *)

Section Fuel.

Context (codes : protocol.Codes) (NewReader : zlib.NewReaderT).

Lemma readCompressedWith_more_fuel
    (rec rec' : io.Reader → lj.RawMessages → v2.M (lj.RawMessages * io.Reader))
    inp evs s :
  (∀ i e t, fst (rec i e t) ≠ OutOfFuel → rec' i e t = rec i e t) →
  fst (v2.readCompressedWith NewReader rec inp evs s) ≠ OutOfFuel →
  v2.readCompressedWith NewReader rec' inp evs s
  = v2.readCompressedWith NewReader rec inp evs s.
Proof.
  intros Hrec. unfold v2.readCompressedWith, v2.bind, v2.lift.
  destruct (v2.readFull inp 4) as [[hdr in1]| | |]; try done.
  destruct (NewReader _) as [z| | |]; try done.
  destruct (rec (zlib.plain z) evs s) as [o1 s1] eqn:Hr.
  destruct o1 as [[evs1 rest]| | |]; intros Hne.
  all: rewrite Hrec by (by rewrite Hr); rewrite Hr; try done.
Qed.

(** One round of the loop. *)
Lemma readEvents_round fuel inp evs :
  v2.readEvents codes NewReader (S fuel) inp evs
  = if decide (length (lj.items evs) < lj.cap evs) then
      v2.bind (v2.lift (v2.readFull inp 2))
        (λ x, let '(hdr, in1) := x in
           if decide (hdr !!! 0 ≠ protocol.CodeVersion codes) then
             v2.throw ErrProtocolError
           else if decide (hdr !!! 1 = protocol.CodeJSONDataFrame codes) then
             v2.bind (v2.readJSONEvent in1)
               (λ y, let '(event, in2) := y in
                  v2.readEvents codes NewReader fuel in2 (lj.append evs event))
           else if decide (hdr !!! 1 = protocol.CodeCompressed codes) then
             v2.bind (v2.readCompressed codes NewReader fuel in1 evs)
               (λ y, let '(readEvents', in2) := y in
                  v2.readEvents codes NewReader fuel in2 readEvents')
           else v2.throw ErrProtocolError)
    else v2.ret (evs, inp).
Proof. reflexivity. Qed.

(** More fuel does not change a result. *)
Lemma readEvents_more_fuel fuel inp evs s :
  fst (v2.readEvents codes NewReader fuel inp evs s) ≠ OutOfFuel →
  v2.readEvents codes NewReader (S fuel) inp evs s
  = v2.readEvents codes NewReader fuel inp evs s.
Proof.
  revert inp evs s. induction fuel as [|fuel IH]; intros inp evs s.
  - cbn. case_decide; [by intros []|done].
  - rewrite (readEvents_round (S fuel) inp evs), (readEvents_round fuel inp evs).
    case_decide; [|intros _; reflexivity].
    unfold v2.bind, v2.lift.
    destruct (v2.readFull inp 2) as [[hdr in1]| | |]; try done.
    case_decide; [done|]. case_decide.
    { destruct (v2.readJSONEvent in1 s) as [[[ev in2]| | |] s1]; try done.
      apply IH. }
    case_decide; [|done].
    unfold v2.readCompressed.
    destruct (v2.readCompressedWith NewReader (v2.readEvents codes NewReader fuel) in1 evs s)
      as [o1 s1] eqn:Hc.
    intros Hne.
    rewrite (readCompressedWith_more_fuel (v2.readEvents codes NewReader fuel));
      [|intros; by apply IH|by rewrite Hc; destruct o1].
    rewrite Hc. destruct o1 as [[evs1 in2]| | |]; try done.
    by apply IH.
Qed.

Lemma readEvents_fuel_le fuel fuel' inp evs s :
  fuel ≤ fuel' →
  fst (v2.readEvents codes NewReader fuel inp evs s) ≠ OutOfFuel →
  v2.readEvents codes NewReader fuel' inp evs s
  = v2.readEvents codes NewReader fuel inp evs s.
Proof.
  intros Hle Hne. induction Hle as [|fuel' Hle IH]; [done|].
  rewrite readEvents_more_fuel; [done|]. by rewrite IH.
Qed.

End Fuel.

(** ** The window frame and the deadlines *)

Section Window.

Context (codes : protocol.Codes) (NewReader : zlib.NewReaderT).

(** [ReadBatch], step by step. *)
Lemma ReadBatch_unfold fuel now wire r h :
  v2.ReadBatch codes NewReader fuel now wire (r, h)
  = let c1 := snd (v2.SetReadDeadline (v2.conn r) None) in
    match v2.readFull (v2.conn_reader c1 wire) 6 with
    | Ok (win, in1) =>
        if bool_decide (win !!! 0 ≠ protocol.CodeVersion codes)
           && bool_decide (win !!! 1 ≠ protocol.CodeWindowSize codes)
        then (Err ErrProtocolError, (v2.set_conn r c1, h))
        else if decide (N.to_nat (binary.Uint32 (drop 2 win)) = 0)
        then (Ok (None, io.avail in1), (v2.set_conn r c1, h))
        else
          let c2 := snd (v2.SetReadDeadline c1 (Some (now + v2.timeout r)%Z)) in
          match v2.deadline_fault (v2.conn r) with
          | Some e => (Err e, (v2.set_conn r c2, h))
          | None =>
              v2.bind
                (v2.readEvents codes NewReader fuel (v2.conn_reader c2 (io.avail in1))
                   {| lj.items := []; lj.cap := N.to_nat (binary.Uint32 (drop 2 win)) |})
                (λ '(events, in2),
                   v2.ret (Some (lj.NewBatch events (v2.clientX509Cert c2)), io.avail in2))
                (v2.set_conn r c2, h)
          end
    | Err e => (Err e, (v2.set_conn r c1, h))
    | Hang => (Hang, (v2.set_conn r c1, h))
    | OutOfFuel => (OutOfFuel, (v2.set_conn r c1, h))
    end.
Proof.
  unfold v2.ReadBatch.
  unfold v2.bind at 1. unfold v2.setReadDeadline at 1.
  cbn [v2.SetReadDeadline fst snd].
  unfold v2.bind at 1. unfold v2.getConn at 1. cbn [fst snd v2.set_conn v2.conn].
  unfold v2.bind at 1. unfold v2.lift at 1. cbn zeta.
  destruct (v2.readFull _ 6) as [[win in1]| | |]; try done.
  destruct (bool_decide _ && bool_decide _); [done|].
  case_decide; [done|].
  unfold v2.bind at 1. unfold v2.getTimeout at 1. cbn [fst snd v2.timeout].
  unfold v2.bind at 1. unfold v2.setReadDeadline at 1.
  cbn [v2.SetReadDeadline fst snd v2.conn v2.deadline_fault v2.set_conn v2.timeout v2.decoder v2.buf].
  destruct (v2.deadline_fault (v2.conn r)) eqn:Ef; [done|].
  unfold v2.bind at 1. unfold v2.getConn at 1. cbn [fst snd v2.set_conn v2.conn].
  reflexivity.
Qed.

Lemma ReadBatch_fuel_le fuel fuel' now wire s :
  fuel ≤ fuel' →
  fst (v2.ReadBatch codes NewReader fuel now wire s) ≠ OutOfFuel →
  v2.ReadBatch codes NewReader fuel' now wire s
  = v2.ReadBatch codes NewReader fuel now wire s.
Proof.
  destruct s as [r h]. intros Hle. rewrite !ReadBatch_unfold. cbn zeta.
  destruct (v2.readFull _ 6) as [[win in1]| | |]; try done.
  destruct (bool_decide _ && bool_decide _); [done|].
  case_decide; [done|].
  destruct (v2.deadline_fault (v2.conn r)); [done|].
  unfold v2.bind.
  destruct (v2.readEvents codes NewReader fuel _ _ _) as [o1 s1] eqn:Hr.
  intros Hne.
  rewrite (readEvents_fuel_le codes NewReader fuel fuel') by
    (done || (rewrite Hr; by destruct o1)).
  by rewrite Hr.
Qed.

(** [ReadBatch] on a stream that opens with six bytes: a version byte, a
    type byte and a count. *)
Lemma ReadBatch_header fuel now (v t : byte) (K : N) rest r h :
  (K < 2 ^ 32)%N →
  v2.ReadBatch codes NewReader fuel now (v :: t :: binary.PutUint32 K ++ rest) (r, h)
  = let c1 := snd (v2.SetReadDeadline (v2.conn r) None) in
    if bool_decide (v ≠ protocol.CodeVersion codes)
       && bool_decide (t ≠ protocol.CodeWindowSize codes)
    then (Err ErrProtocolError, (v2.set_conn r c1, h))
    else if decide (N.to_nat K = 0) then (Ok (None, rest), (v2.set_conn r c1, h))
    else
      let c2 := snd (v2.SetReadDeadline c1 (Some (now + v2.timeout r)%Z)) in
      match v2.deadline_fault (v2.conn r) with
      | Some e => (Err e, (v2.set_conn r c2, h))
      | None =>
          v2.bind
            (v2.readEvents codes NewReader fuel (v2.conn_reader c2 rest)
               {| lj.items := []; lj.cap := N.to_nat K |})
            (λ '(events, in2),
               v2.ret (Some (lj.NewBatch events (v2.clientX509Cert c2)), io.avail in2))
            (v2.set_conn r c2, h)
      end.
Proof.
  intros HK. rewrite ReadBatch_unfold. cbn zeta.
  unfold v2.conn_reader at 1.
  rewrite (readFull_app (v :: t :: binary.PutUint32 K) rest _ 6) by done.
  cbn [lookup_total list_lookup_total].
  change (drop 2 (v :: t :: binary.PutUint32 K)) with (binary.PutUint32 K ++ []).
  rewrite Uint32_PutUint32 by done.
  reflexivity.
Qed.

Lemma ReadBatch_window fuel now (K : N) rest r h :
  (K < 2 ^ 32)%N →
  v2.ReadBatch codes NewReader fuel now (frames.window codes K ++ rest) (r, h)
  = let c1 := snd (v2.SetReadDeadline (v2.conn r) None) in
    if decide (N.to_nat K = 0) then (Ok (None, rest), (v2.set_conn r c1, h))
    else
      let c2 := snd (v2.SetReadDeadline c1 (Some (now + v2.timeout r)%Z)) in
      match v2.deadline_fault (v2.conn r) with
      | Some e => (Err e, (v2.set_conn r c2, h))
      | None =>
          v2.bind
            (v2.readEvents codes NewReader fuel (v2.conn_reader c2 rest)
               {| lj.items := []; lj.cap := N.to_nat K |})
            (λ '(events, in2),
               v2.ret (Some (lj.NewBatch events (v2.clientX509Cert c2)), io.avail in2))
            (v2.set_conn r c2, h)
      end.
Proof.
  intros HK. unfold frames.window. cbn [app].
  rewrite ReadBatch_header by done. cbn zeta.
  rewrite (bool_decide_eq_false_2 (_ ≠ _)) by (intros H; by apply H).
  done.
Qed.

Lemma ReadBatch_zero_window fuel now rest r h :
  v2.ReadBatch codes NewReader fuel now (frames.window codes 0 ++ rest) (r, h)
  = (Ok (None, rest),
     (v2.set_conn r (snd (v2.SetReadDeadline (v2.conn r) None)), h)).
Proof. by rewrite ReadBatch_window. Qed.

(** C4. A window-size frame with count 0 makes [ReadBatch] return the nil
    batch and no error; the bytes after the six of the frame are all left
    unread, whatever they are, and neither the buffer of the reader nor
    the heap is touched. *)
Theorem ReadBatch_heartbeat fuel now rest r h :
  let res := v2.ReadBatch codes NewReader fuel now
               (frames.window codes 0 ++ rest) (r, h) in
  fst res = Ok (None, rest)
  ∧ v2.buf (fst (snd res)) = v2.buf r
  ∧ snd (snd res) = h.
Proof. cbn zeta. by rewrite ReadBatch_zero_window. Qed.

(** The window check of [ReadBatch] on a zero window: a protocol error
    when both the version byte and the type byte are off, the nil batch
    otherwise. *)
Lemma ReadBatch_window_check fuel now (v t : byte) rest r h :
  fst (v2.ReadBatch codes NewReader fuel now (v :: t :: binary.PutUint32 0 ++ rest) (r, h))
  = if bool_decide (v ≠ protocol.CodeVersion codes)
       && bool_decide (t ≠ protocol.CodeWindowSize codes)
    then Err ErrProtocolError
    else Ok (None, rest).
Proof.
  rewrite ReadBatch_header by done. cbn zeta.
  by destruct (bool_decide _ && bool_decide _).
Qed.

(** The connection after a call on a stream that opens with a window of
    [K] events, [K] not zero. *)
Lemma ReadBatch_conn_nonzero fuel now (K : N) rest r h :
  (0 < K < 2 ^ 32)%N →
  v2.conn (fst (snd (v2.ReadBatch codes NewReader fuel now
                       (frames.window codes K ++ rest) (r, h))))
  = snd (v2.SetReadDeadline (snd (v2.SetReadDeadline (v2.conn r) None))
           (Some (now + v2.timeout r)%Z)).
Proof.
  intros [HK0 HK]. rewrite ReadBatch_window by done. cbn zeta.
  rewrite decide_False by lia.
  destruct (v2.deadline_fault (v2.conn r)); [done|].
  unfold v2.bind.
  pose proof (readEvents_unchanged codes NewReader fuel
                (v2.conn_reader (snd (v2.SetReadDeadline (snd (v2.SetReadDeadline (v2.conn r) None))
                   (Some (now + v2.timeout r)%Z))) rest)
                {| lj.items := []; lj.cap := N.to_nat K |}
                (v2.set_conn r (snd (v2.SetReadDeadline (snd (v2.SetReadDeadline (v2.conn r) None))
                   (Some (now + v2.timeout r)%Z))), h)) as (Hc & _).
  destruct (v2.readEvents _ _ _ _ _ _) as [[[ev in2]| | |] s']; exact Hc.
Qed.

(** C9. With a working [SetReadDeadline]:
    - a call that finds fewer than the six bytes of a window frame on a
      silent connection blocks for ever, whatever deadline was in force
      before the call: the deadline is cleared before the read;
    - after a zero window no deadline is in force, and clearing it was
      the only call;
    - after a window of [K > 0] events the deadline in force is [now]
      plus the timeout of the reader, set by one call after the clearing
      one, whatever the frames that follow and the outcome;
    - when the connection stays silent after such a window (or after one
      more byte of it), the call returns the timeout error. *)
Theorem ReadBatch_deadlines fuel now r h :
  v2.deadline_fault (v2.conn r) = None →
  (v2.peer (v2.conn r) = v2.Silent →
   ∀ wire, length wire < 6 →
     fst (v2.ReadBatch codes NewReader fuel now wire (r, h)) = Hang)
  ∧ (∀ rest,
       let c' := v2.conn (fst (snd (v2.ReadBatch codes NewReader fuel now
                                      (frames.window codes 0 ++ rest) (r, h)))) in
       v2.deadline c' = None
       ∧ v2.deadline_calls c' = v2.deadline_calls (v2.conn r) ++ [None])
  ∧ (∀ K rest, (0 < K < 2 ^ 32)%N →
       let c' := v2.conn (fst (snd (v2.ReadBatch codes NewReader fuel now
                                      (frames.window codes K ++ rest) (r, h)))) in
       v2.deadline c' = Some (now + v2.timeout r)%Z
       ∧ v2.deadline_calls c'
         = v2.deadline_calls (v2.conn r) ++ [None; Some (now + v2.timeout r)%Z])
  ∧ (v2.peer (v2.conn r) = v2.Silent →
     ∀ K part, (0 < K < 2 ^ 32)%N → 0 < fuel → length part < 2 →
       fst (v2.ReadBatch codes NewReader fuel now (frames.window codes K ++ part) (r, h))
       = Err ErrTimeout).
Proof.
  intros Hf. split_and!.
  - intros Hp wire Hw. rewrite ReadBatch_unfold. cbn zeta.
    unfold v2.readFull, io.ReadFull, v2.conn_reader. cbn.
    rewrite decide_False by lia. by rewrite Hp, Hf.
  - intros rest. cbn zeta. rewrite ReadBatch_zero_window. cbn. by rewrite Hf.
  - intros K rest HK. cbn zeta. rewrite ReadBatch_conn_nonzero by done.
    cbn. rewrite Hf. by rewrite <-app_assoc.
  - intros Hp K part HK Hfuel Hpart. rewrite ReadBatch_window by lia. cbn zeta.
    rewrite decide_False by lia. rewrite Hf.
    destruct fuel as [|fuel]; [lia|].
    unfold v2.bind. cbn [v2.readEvents lj.items lj.cap length].
    rewrite decide_True by lia.
    unfold v2.bind, v2.lift, v2.readFull, io.ReadFull, v2.conn_reader. cbn.
    rewrite decide_False by lia. rewrite Hp, Hf. done.
Qed.

End Window.

(** ** The certificate of the client *)

Lemma clientX509Cert_Some c cert :
  v2.clientX509Cert c = Some cert
  ↔ ∃ issuer, v2.VerifiedChains c = Some [[cert; issuer]].
Proof.
  unfold v2.clientX509Cert. destruct (v2.VerifiedChains c) as [chains|].
  - case_decide as H.
    + destruct H as [H1 H2].
      destruct chains as [|chain [|]]; try done.
      cbn in H2 |- *. destruct chain as [|leaf [|issuer [|]]]; try done.
      cbn. split.
      * intros [= <-]. by exists issuer.
      * by intros [? [= <- _]].
    + split; [done|]. intros [issuer [= ->]]. destruct H. done.
  - split; [done|]. by intros [? ?].
Qed.

Lemma conn_reader_set_chains c chains bytes :
  v2.conn_reader (v2.set_chains c chains) bytes = v2.conn_reader c bytes.
Proof. done. Qed.

Section Identity.

Context (codes : protocol.Codes) (NewReader : zlib.NewReaderT).

(** C5. When [ReadBatch] returns a batch, the batch carries a certificate
    exactly when the connection is a TLS connection with one verified
    chain of two certificates, and the certificate is then the first of
    that chain.  For any other outcome of the handshake (no TLS, no chain,
    several chains, a chain of another length) the same call returns the
    same events and the same unread bytes, without a certificate and
    without an error. *)
Theorem ReadBatch_client_cert fuel now wire r h b rest s' :
  v2.ReadBatch codes NewReader fuel now wire (r, h) = (Ok (Some b, rest), s') →
  (∀ cert, lj.ClientX509Cert b = Some cert
           ↔ ∃ issuer, v2.VerifiedChains (v2.conn r) = Some [[cert; issuer]])
  ∧ (∀ chains, ∃ b2 s2,
       v2.ReadBatch codes NewReader fuel now wire
         (v2.set_conn r (v2.set_chains (v2.conn r) chains), h)
       = (Ok (Some b2, rest), s2)
       ∧ lj.Events b2 = lj.Events b
       ∧ snd s2 = snd s'
       ∧ (∀ cert, lj.ClientX509Cert b2 = Some cert
                  ↔ ∃ issuer, chains = Some [[cert; issuer]])).
Proof.
  rewrite ReadBatch_unfold. cbn zeta. intros Hrun.
  set (c1 := snd (v2.SetReadDeadline (v2.conn r) None)) in *.
  destruct (v2.readFull (v2.conn_reader c1 wire) 6) as [[win in1]| | |] eqn:Hwin;
    try done.
  destruct (bool_decide _ && bool_decide _) eqn:Hchk; [done|].
  case_decide as Hcount; [done|].
  destruct (v2.deadline_fault (v2.conn r)) eqn:Hf; [done|].
  set (c2 := snd (v2.SetReadDeadline c1 _)) in *.
  unfold v2.bind in Hrun.
  destruct (v2.readEvents codes NewReader fuel _ _ (v2.set_conn r c2, h))
    as [[[events in2]| | |] s1] eqn:Hev; try done.
  injection Hrun as <- <- <-.
  split.
  - intros cert. cbn [lj.ClientX509Cert lj.NewBatch].
    by rewrite clientX509Cert_Some.
  - intros chains. rewrite ReadBatch_unfold. cbn zeta.
    cbn [v2.conn v2.set_conn v2.timeout v2.deadline_fault v2.set_chains].
    change (snd (v2.SetReadDeadline (v2.set_chains (v2.conn r) chains) None))
      with (v2.set_chains c1 chains).
    rewrite conn_reader_set_chains, Hwin, Hchk.
    rewrite decide_False by done. rewrite Hf.
    change (snd (v2.SetReadDeadline (v2.set_chains c1 chains)
                   (Some (now + v2.timeout r)%Z)))
      with (v2.set_chains c2 chains).
    rewrite conn_reader_set_chains. unfold v2.bind.
    destruct (local_readEvents codes NewReader fuel
                (v2.conn_reader c2 (io.avail in1))
                {| lj.items := []; lj.cap := N.to_nat (binary.Uint32 (drop 2 win)) |}
                (v2.set_conn r c2, h)
                (v2.set_conn (v2.set_conn r (v2.set_chains (v2.conn r) chains))
                   (v2.set_chains c2 chains), h)) as (Ho & Hs & _); [done|].
    rewrite Hev in Ho, Hs. cbn [fst snd] in Ho, Hs.
    match type of Ho with _ = fst ?t => destruct t as [o2 s2] end.
    cbn [fst snd] in Ho, Hs. subst o2.
    eexists _, _. split; [reflexivity|].
    split; [done|]. split; [symmetry; apply Hs|].
    intros cert. cbn [lj.ClientX509Cert lj.NewBatch].
    by rewrite clientX509Cert_Some.
Qed.

(** [ReadBatch] with another decoder in the reader. *)
Lemma ReadBatch_set_decoder fuel now wire r h d :
  v2.ReadBatch codes NewReader fuel now wire (v2.set_decoder r d, h)
  = let '(o, (r', h')) := v2.ReadBatch codes NewReader fuel now wire (r, h) in
    (o, (v2.set_decoder r' d, h')).
Proof.
  rewrite !ReadBatch_unfold. cbn zeta.
  cbn [v2.conn v2.set_decoder v2.timeout v2.deadline_fault].
  destruct (v2.readFull _ 6) as [[win in1]| | |]; try done.
  destruct (bool_decide _ && bool_decide _); [done|].
  case_decide; [done|].
  destruct (v2.deadline_fault (v2.conn r)); [done|].
  set (c2 := snd (v2.SetReadDeadline _ _)).
  unfold v2.bind.
  destruct (local_readEvents codes NewReader fuel
              (v2.conn_reader c2 (io.avail in1))
              {| lj.items := []; lj.cap := N.to_nat (binary.Uint32 (drop 2 win)) |}
              (v2.set_conn r c2, h)
              (v2.set_conn (v2.set_decoder r d) c2, h)) as (Ho & Hs & Hu); [done|].
  pose proof (readEvents_unchanged codes NewReader fuel
              (v2.conn_reader c2 (io.avail in1))
              {| lj.items := []; lj.cap := N.to_nat (binary.Uint32 (drop 2 win)) |}
              (v2.set_conn (v2.set_decoder r d) c2, h)) as Hu2.
  destruct (v2.readEvents codes NewReader fuel _ _ (v2.set_conn r c2, h))
    as [o1 [r1 h1]].
  destruct (v2.readEvents codes NewReader fuel _ _ (v2.set_conn (v2.set_decoder r d) c2, h))
    as [o2 [r2 h2]].
  cbn [fst snd] in *. subst o2.
  destruct Hs as [Hb Hh]. destruct Hu as (Hc1 & Ht1 & Hd1).
  destruct Hu2 as (Hc2 & Ht2 & Hd2). cbn in *. subst h2.
  assert (r2 = v2.set_decoder r1 d) as ->.
  { destruct r1, r2. unfold v2.set_decoder. cbn in *. congruence. }
  by destruct o1 as [[ev in2]| | |].
Qed.

End Identity.

(** ** The acknowledgement *)

Lemma run_blocked evts cert n :
  lj.run (lj.NewBatch evts cert) (replicate n lj.DoAwait) = replicate n lj.Blocked.
Proof. induction n as [|n IH]; [done|]. cbn. by rewrite <-IH. Qed.

Lemma run_blocked_then evts cert n acts :
  lj.run (lj.NewBatch evts cert) (replicate n lj.DoAwait ++ acts)
  = replicate n lj.Blocked ++ lj.run (lj.NewBatch evts cert) acts.
Proof. induction n as [|n IH]; [done|]. cbn. by rewrite <-IH. Qed.

Lemma run_completed_then b m acts :
  lj.ack b = lj.Closed →
  lj.run b (replicate m lj.DoAwait ++ acts)
  = replicate m lj.Completed ++ lj.run b acts.
Proof.
  intros Hb. induction m as [|m IH]; [done|]. cbn.
  unfold lj.Await. rewrite Hb. cbn. by rewrite <-IH.
Qed.

(** C6. On a fresh batch, in any interleaving of [ACK] calls and
    observers of [Await]:
    - as long as [ACK] was not called every observer stays blocked;
    - the first [ACK] returns, and from then on every observer sees the
      completion;
    - a second [ACK] panics, and nothing runs after it. *)
Theorem ACK_once_Await_after evts cert n m acts :
  lj.run (lj.NewBatch evts cert) (replicate n lj.DoAwait) = replicate n lj.Blocked
  ∧ lj.run (lj.NewBatch evts cert)
      (replicate n lj.DoAwait ++ lj.DoACK :: replicate m lj.DoAwait)
    = replicate n lj.Blocked ++ lj.Acked :: replicate m lj.Completed
  ∧ lj.run (lj.NewBatch evts cert)
      (replicate n lj.DoAwait ++ lj.DoACK :: replicate m lj.DoAwait ++ lj.DoACK :: acts)
    = replicate n lj.Blocked ++ lj.Acked :: replicate m lj.Completed ++ [lj.Panicked].
Proof.
  split_and!.
  - apply run_blocked.
  - rewrite run_blocked_then. f_equal. cbn. f_equal.
    rewrite <-(app_nil_r (replicate m lj.DoAwait)).
    rewrite run_completed_then by done. cbn. by rewrite app_nil_r.
  - rewrite run_blocked_then. f_equal. cbn. f_equal.
    by rewrite run_completed_then.
Qed.

(** ** The buffer and the payloads in the heap *)

Lemma extends_refl s : extends s s.
Proof. unfold extends. split_and!; auto. Qed.

Lemma extends_trans s1 s2 s3 : extends s1 s2 → extends s2 s3 → extends s1 s3.
Proof.
  intros (Hl1 & Hk1 & Hp1 & Hn1) (Hl2 & Hk2 & Hp2 & Hn2).
  split_and!; [lia| | |lia].
  - intros a Ha Hb. rewrite Hk2, Hk1; [done..|lia|].
    destruct Hp1 as [->|(a' & -> & ?)]; [done|]. intros [= ->]. lia.
  - destruct Hp2 as [->|(a' & -> & ?)]; [done|].
    right. exists a'. split; [done|lia].
Qed.

Lemma handed_out_extends s s' e : extends s s' → handed_out s e → handed_out s' e.
Proof.
  intros (Hl & _ & Hp & _). unfold handed_out.
  destruct (mem.ptr e) as [a|]; [|done]. intros [Ha Hb]. split; [lia|].
  destruct Hp as [->|(a' & -> & ?)]; [done|]. intros [= ->]. lia.
Qed.

Lemma load_extends s s' e :
  extends s s' → handed_out s e → mem.load (snd s') e = mem.load (snd s) e.
Proof.
  intros (_ & Hk & _) Hh. unfold mem.load, handed_out in *.
  destruct (mem.ptr e) as [a|]; [|done]. destruct Hh. by rewrite Hk.
Qed.

Lemma new_event_weaken s0 s1 s2 s3 e :
  extends s0 s1 → extends s2 s3 → new_event s1 s2 e → new_event s0 s3 e.
Proof.
  intros H01 H23 (Hh & Hn & Hf). split_and!.
  - by eapply handed_out_extends.
  - destruct H23 as (_ & _ & _ & ?). lia.
  - intros a Ha. apply Hf in Ha. destruct H01 as (? & _). lia.
Qed.

(** A reader is born with its buffer in the heap. *)
Lemma newReader_wf c to d h : wf (v2.newReader c to d h).
Proof.
  unfold wf, v2.newReader, mem.make. cbn [fst snd v2.buf mem.ptr mem.len].
  rewrite length_app. cbn [length]. split; lia.
Qed.

Lemma growBuf_sound n r h :
  wf (r, h) →
  ∃ r1 h1, v2.growBuf n (r, h) = (Ok tt, (r1, h1))
    ∧ wf (r1, h1) ∧ extends (r, h) (r1, h1)
    ∧ mem.len (v2.buf r1) = Nat.max (mem.len (v2.buf r)) n.
Proof.
  intros Hwf. unfold v2.growBuf, mem.make. case_decide as Hlt.
  - eexists _, _. split; [reflexivity|]. split_and!.
    + unfold wf. cbn [fst snd v2.buf v2.set_buf mem.ptr mem.len].
      rewrite length_app. cbn [length]. split; [lia|].
      rewrite list_lookup_total_middle by done. by rewrite length_replicate.
    + unfold extends. cbn [fst snd v2.buf v2.set_buf mem.ptr mem.len]. split_and!.
      * rewrite length_app. lia.
      * intros a Ha _. by apply lookup_total_app_l.
      * right. by eexists.
      * lia.
    + cbn [fst snd v2.buf v2.set_buf mem.ptr mem.len]. lia.
  - eexists _, _. split; [reflexivity|]. split_and!; [done|apply extends_refl|lia].
Qed.

Lemma store_sound n got r h :
  wf (r, h) → n ≤ mem.len (v2.buf r) → length got ≤ n →
  let h' := mem.store h (mem.reslice (v2.buf r) n) got in
  wf (r, h') ∧ extends (r, h) (r, h')
  ∧ (length got = n → mem.load h' (mem.reslice (v2.buf r) n) = got).
Proof.
  intros Hwf Hn Hgot. unfold wf, extends, mem.store, mem.load, mem.reslice in *.
  cbn in *. destruct (mem.ptr (v2.buf r)) as [a|] eqn:Hp.
  - destruct Hwf as [Ha Hlen]. cbn. rewrite length_alter.
    rewrite list_lookup_total_alter_eq by done.
    split_and!; try done.
    + rewrite length_app, length_drop. lia.
    + intros a' Ha' Hne. apply list_lookup_total_alter_ne. congruence.
    + by left.
    + intros <-. by rewrite take_app_length.
  - cbn. split_and!; auto.
    intros Hg. destruct got; [done|]. cbn in *. lia.
Qed.

Lemma clone_sound n r h :
  wf (r, h) → n ≤ mem.len (v2.buf r) →
  let b := mem.reslice (v2.buf r) n in
  let ev := fst (mem.clone h b) in
  let h' := snd (mem.clone h b) in
  wf (r, h') ∧ extends (r, h) (r, h')
  ∧ new_event (r, h) (r, h') ev
  ∧ mem.load h' ev = mem.load h b ∧ mem.len ev = n.
Proof.
  intros Hwf Hn. cbn zeta. unfold mem.clone. cbn [mem.len mem.reslice].
  destruct n as [|n]; cbn [fst snd].
  - split_and!; [done|apply extends_refl| |..|done].
    + split_and!; [done|cbn; lia|done].
    + unfold mem.load. cbn. by destruct (mem.ptr (v2.buf r)).
  - assert (mem.ptr (v2.buf r) ≠ Some (length h)) as Hfresh.
    { unfold wf in Hwf. cbn in Hwf. destruct (mem.ptr (v2.buf r)); [|done].
      intros [= ->]. lia. }
    split_and!.
    + unfold wf in *. cbn in *. destruct (mem.ptr (v2.buf r)) as [a|]; [|done].
      destruct Hwf. rewrite length_app. split; [lia|].
      by rewrite lookup_total_app_l.
    + unfold extends. cbn. rewrite length_app. split_and!; [lia| |by left|lia].
      intros a Ha _. by apply lookup_total_app_l.
    + split_and!.
      * unfold handed_out. cbn. rewrite length_app. cbn. split; [lia|done].
      * cbn. lia.
      * cbn. intros a [= <-]. lia.
    + unfold mem.load at 1. cbn [mem.ptr mem.len].
      rewrite list_lookup_total_middle by done.
      apply take_ge. unfold mem.load. cbn.
      destruct (mem.ptr (v2.buf r)); [|cbn; lia].
      rewrite length_take. lia.
    + done.
Qed.

(** [readJSONEvent], whatever it reads: the state stays well formed and
    only grows; a payload it returns is a copy in an array of its own,
    holding the bytes that follow the eight bytes of the frame header. *)
Lemma readJSONEvent_sound inp s o s' :
  wf s →
  v2.readJSONEvent inp s = (o, s') →
  wf s' ∧ extends s s'
  ∧ (8 ≤ length (io.avail inp) →
     mem.len (v2.buf (fst s'))
     = Nat.max (mem.len (v2.buf (fst s)))
               (N.to_nat (binary.Uint32 (drop 4 (take 8 (io.avail inp))))))
  ∧ ∀ ev in2, o = Ok (ev, in2) →
      let n := N.to_nat (binary.Uint32 (drop 4 (take 8 (io.avail inp)))) in
      new_event s s' ev
      ∧ mem.load (snd s') ev = take n (drop 8 (io.avail inp))
      ∧ mem.len ev = n
      ∧ 8 + n ≤ length (io.avail inp)
      ∧ in2 = io.advance (8 + n) inp.
Proof.
  destruct s as [r h]. intros Hwf. cbn zeta.
  unfold v2.readJSONEvent. unfold v2.bind at 1. unfold v2.lift at 1.
  unfold v2.readFull, io.ReadFull.
  case_decide as H8; cycle 1.
  { destruct (io.fin inp) as [[]|]; destruct (io.avail inp); intros [= <- <-];
      (split_and!; [done|apply extends_refl|done|done]). }
  cbn [fst snd].
  set (n := N.to_nat (binary.Uint32 (drop 4 (take 8 (io.avail inp))))).
  unfold v2.bind at 1.
  destruct (growBuf_sound n r h Hwf) as (r1 & h1 & -> & Hwf1 & Hext1 & Hlen1).
  unfold v2.bind at 1. unfold v2.getBuf at 1. cbn [fst snd].
  unfold v2.bind at 1. unfold v2.readFullAt at 1. unfold io.ReadFull.
  cbn [mem.len mem.reslice io.avail io.advance io.fin].
  assert (n ≤ mem.len (v2.buf r1)) as Hn1 by lia.
  assert (length (take n (drop 8 (io.avail inp))) ≤ n) as Hgot
      by (rewrite length_take; lia).
  destruct (store_sound n (take n (drop 8 (io.avail inp))) r1 h1 Hwf1 Hn1 Hgot)
    as (Hwf2 & Hext2 & Hload2).
  set (h2 := mem.store h1 _ _) in *.
  assert (extends (r, h) (r1, h2)) as He2 by (by eapply extends_trans).
  case_decide as Hn; cycle 1.
  { destruct (io.fin inp) as [[]|]; destruct (drop 8 (io.avail inp));
      intros [= <- <-]; (split_and!; [done|done|done|done]). }
  unfold v2.bind at 1. unfold v2.copyOut at 1.
  destruct (clone_sound n r1 h2 Hwf2 Hn1) as (Hwf3 & Hext3 & Hnew & Hload3 & Hlen3).
  destruct (mem.clone h2 (mem.reslice (v2.buf r1) n)) as [ev h3] eqn:Hclone.
  cbn [fst snd] in *. unfold v2.ret. intros [= <- <-].
  split_and!; [done|by eapply extends_trans|done|].
  intros ev' in2 [= <- <-].
  rewrite length_drop in Hn.
  split_and!.
  - eapply new_event_weaken; [exact He2|apply extends_refl|done].
  - cbn [snd]. rewrite Hload3. apply Hload2. rewrite length_take, length_drop. lia.
  - done.
  - lia.
  - unfold io.advance. cbn. f_equal. rewrite drop_drop. done.
Qed.

Lemma events_post_trans s s1 s' evs evs1 evs' :
  extends s s1 → extends s1 s' →
  events_post s s1 evs evs1 → events_post s1 s' evs1 evs' →
  events_post s s' evs evs'.
Proof.
  intros He1 He2 (new1 & Hi1 & Hc1 & Hn1 & Hl1) (new2 & Hi2 & Hc2 & Hn2 & Hl2).
  exists (new1 ++ new2). split_and!.
  - by rewrite Hi2, Hi1, <-app_assoc.
  - congruence.
  - apply Forall_app. split.
    + eapply Forall_impl; [exact Hn1|]. intros e He.
      eapply new_event_weaken; [apply extends_refl|exact He2|done].
    + eapply Forall_impl; [exact Hn2|]. intros e He.
      eapply new_event_weaken; [exact He1|apply extends_refl|done].
  - intros Hle. rewrite Hl2; [congruence|]. rewrite Hc1, Hl1; done.
Qed.

Section Loop.

Context (codes : protocol.Codes) (NewReader : zlib.NewReaderT).

Lemma readCompressedWith_sound rec :
  sound_loop rec → sound_loop (v2.readCompressedWith NewReader rec).
Proof.
  intros Hrec inp evs s o s' Hwf. unfold v2.readCompressedWith.
  unfold v2.bind at 1. unfold v2.lift at 1.
  destruct (v2.readFull inp 4) as [[hdr in1]| | |];
    try (intros [= <- <-]; split_and!; [done|apply extends_refl|done]).
  unfold v2.bind at 1. unfold v2.lift at 1.
  destruct (NewReader _) as [z| | |];
    try (intros [= <- <-]; split_and!; [done|apply extends_refl|done]).
  unfold v2.bind at 1.
  destruct (rec (zlib.plain z) evs s) as [o1 s1] eqn:Hr.
  destruct (Hrec _ _ _ _ _ Hwf Hr) as (Hwf1 & Hext1 & Hpost).
  destruct o1 as [[evs1 rest]| | |];
    try (intros [= <- <-]; split_and!; [done|done|done]).
  destruct (zlib.Close z _);
    [intros [= <- <-]; split_and!; [done|done|done]|].
  unfold v2.bind at 1. unfold v2.lift at 1.
  destruct (v2.drain _ _);
    try (intros [= <- <-]; split_and!; [done|done|done]).
  intros [= <- <-]. split_and!; [done|done|].
  intros evs' rest' [= <- <-]. by eapply Hpost.
Qed.

(** The frame loop, whatever it reads. *)
Lemma readEvents_sound fuel : sound_loop (v2.readEvents codes NewReader fuel).
Proof.
  induction fuel as [|fuel IH]; intros inp evs s o s' Hwf; cbn [v2.readEvents].
  - case_decide as Hlt.
    + intros [= <- <-]. split_and!; [done|apply extends_refl|done].
    + intros [= <- <-]. split_and!; [done|apply extends_refl|].
      intros evs' rest [= <- <-]. exists []. rewrite app_nil_r.
      split_and!; [done..|]. lia.
  - case_decide as Hlt; cycle 1.
    { intros [= <- <-]. split_and!; [done|apply extends_refl|].
      intros evs' rest [= <- <-]. exists []. rewrite app_nil_r.
      split_and!; [done..|]. lia. }
    unfold v2.bind at 1. unfold v2.lift at 1.
    destruct (v2.readFull inp 2) as [[hdr in1]| | |];
      try (intros [= <- <-]; split_and!; [done|apply extends_refl|done]).
    case_decide; [intros [= <- <-]; split_and!; [done|apply extends_refl|done]|].
    case_decide.
    { unfold v2.bind at 1.
      destruct (v2.readJSONEvent in1 s) as [o1 s1] eqn:Hj.
      destruct (readJSONEvent_sound _ _ _ _ Hwf Hj) as (Hwf1 & Hext1 & _ & Hpost1).
      destruct o1 as [[ev in2]| | |];
        try (intros [= <- <-]; split_and!; [done|done|done]).
      intros Hr. destruct (IH _ _ _ _ _ Hwf1 Hr) as (Hwf2 & Hext2 & Hpost2).
      split_and!; [done|by eapply extends_trans|].
      intros evs' rest ->.
      destruct (Hpost1 _ _ eq_refl) as (Hnew & _).
      destruct (Hpost2 _ _ eq_refl) as (new & Hi & Hc & Hn & Hl).
      cbn [lj.append lj.items lj.cap] in *.
      exists (ev :: new). split_and!.
      - by rewrite Hi, <-app_assoc.
      - rewrite Hc. lia.
      - constructor.
        + eapply new_event_weaken; [apply extends_refl|exact Hext2|done].
        + eapply Forall_impl; [exact Hn|]. intros e He.
          eapply new_event_weaken; [exact Hext1|apply extends_refl|done].
      - intros _. rewrite Hl; [lia|]. rewrite length_app. cbn. lia. }
    case_decide; [|intros [= <- <-]; split_and!; [done|apply extends_refl|done]].
    unfold v2.bind at 1.
    destruct (v2.readCompressedWith _ _ _ _ s) as [o1 s1] eqn:Hc.
    destruct (readCompressedWith_sound _ IH _ _ _ _ _ Hwf Hc) as (Hwf1 & Hext1 & Hpost1).
    destruct o1 as [[evs1 in2]| | |];
      try (intros [= <- <-]; split_and!; [done|done|done]).
    intros Hr. destruct (IH _ _ _ _ _ Hwf1 Hr) as (Hwf2 & Hext2 & Hpost2).
    split_and!; [done|by eapply extends_trans|].
    intros evs' rest ->.
    eapply events_post_trans; [exact Hext1|exact Hext2|by eapply Hpost1|by eapply Hpost2].
Qed.

Lemma wf_set_conn r c h : wf (v2.set_conn r c, h) ↔ wf (r, h).
Proof. done. Qed.

Lemma extends_set_conn r c h : extends (r, h) (v2.set_conn r c, h).
Proof. exact (extends_refl (r, h)). Qed.

(** [ReadBatch], whatever it reads: the state stays well formed and only
    grows, and a batch it returns holds as many payloads as the window
    declared, all of them made during the call. *)
Lemma ReadBatch_sound fuel now wire s o s' :
  wf s →
  v2.ReadBatch codes NewReader fuel now wire s = (o, s') →
  wf s' ∧ extends s s'
  ∧ ∀ b rest, o = Ok (Some b, rest) →
      Forall (new_event s s') (lj.items (lj.Events b))
      ∧ length (lj.items (lj.Events b))
        = N.to_nat (binary.Uint32 (drop 2 (take 6 wire))).
Proof.
  destruct s as [r h]. intros Hwf. rewrite ReadBatch_unfold. cbn zeta.
  set (c1 := snd (v2.SetReadDeadline (v2.conn r) None)).
  unfold v2.readFull, io.ReadFull. cbn [v2.conn_reader io.avail io.fin].
  case_decide as H6; cycle 1.
  { destruct (v2.peer c1) as [[]|]; destruct wire; destruct (v2.deadline c1);
      intros [= <- <-]; (split_and!; [done|apply extends_set_conn|done]). }
  destruct (bool_decide _ && bool_decide _);
    [intros [= <- <-]; split_and!; [done|apply extends_set_conn|done]|].
  case_decide; [intros [= <- <-]; split_and!; [done|apply extends_set_conn|done]|].
  destruct (v2.deadline_fault (v2.conn r));
    [intros [= <- <-]; split_and!; [done|apply extends_set_conn|done]|].
  set (c2 := snd (v2.SetReadDeadline c1 _)).
  unfold v2.bind.
  destruct (v2.readEvents _ _ _ _ _ _) as [o1 s1] eqn:Hr.
  assert (wf (v2.set_conn r c2, h)) as Hwf2 by done.
  destruct (readEvents_sound _ _ _ _ _ _ Hwf2 Hr) as (Hwf1 & Hext1 & Hpost).
  destruct o1 as [[evs in2]| | |]; intros [= <- <-];
    (split_and!; [done|exact Hext1|try done]).
  intros b rest [= <- <-].
  destruct (Hpost _ _ eq_refl) as (new & Hi & Hc & Hn & Hl).
  cbn [lj.items lj.cap lj.Events lj.NewBatch app] in *. subst new.
  split; [done|]. rewrite Hl by (cbn; lia). done.
Qed.

(** C8. On any reader whose buffer is in the heap:
    - a data frame read by [readJSONEvent] never shortens the buffer, and
      leaves it as long as the longer of its length before and the length
      the frame declares;
    - when [ReadBatch] returns a batch, the buffer is not shorter than
      before the call and at least as long as each payload of the batch,
      and no payload of the batch lies in the array of the buffer;
    - whatever a later call of [ReadBatch] on the same reader reads, and
      however it ends, the buffer is not shorter after it, the payloads
      of the batch still lie outside the array of the buffer, and they
      read the same after the call as before it. *)
Theorem buffer_reuse_keeps_payloads s0 :
  wf s0 →
  (∀ inp,
     let s' := snd (v2.readJSONEvent inp s0) in
     mem.len (v2.buf (fst s0)) ≤ mem.len (v2.buf (fst s'))
     ∧ (8 ≤ length (io.avail inp) →
        mem.len (v2.buf (fst s'))
        = Nat.max (mem.len (v2.buf (fst s0)))
                  (N.to_nat (binary.Uint32 (drop 4 (take 8 (io.avail inp)))))))
  ∧ (∀ fuel1 now1 wire1 b rest s1,
       v2.ReadBatch codes NewReader fuel1 now1 wire1 s0 = (Ok (Some b, rest), s1) →
       ∀ fuel2 now2 wire2,
         let s2 := snd (v2.ReadBatch codes NewReader fuel2 now2 wire2 s1) in
         mem.len (v2.buf (fst s0)) ≤ mem.len (v2.buf (fst s1))
         ∧ mem.len (v2.buf (fst s1)) ≤ mem.len (v2.buf (fst s2))
         ∧ Forall (λ e, mem.len e ≤ mem.len (v2.buf (fst s1))) (lj.items (lj.Events b))
         ∧ Forall (handed_out s1) (lj.items (lj.Events b))
         ∧ Forall (handed_out s2) (lj.items (lj.Events b))
         ∧ payloads (snd s2) b = payloads (snd s1) b).
Proof.
  intros Hwf0. split.
  - intros inp. cbn zeta.
    destruct (v2.readJSONEvent inp s0) as [o s'] eqn:Hj.
    destruct (readJSONEvent_sound _ _ _ _ Hwf0 Hj) as (_ & Hext & Hlen & _).
    split; [by destruct Hext as (_ & _ & _ & ?)|done].
  - intros fuel1 now1 wire1 b rest s1 Hrun1 fuel2 now2 wire2. cbn zeta.
    destruct (ReadBatch_sound _ _ _ _ _ _ Hwf0 Hrun1) as (Hwf1 & Hext1 & Hpost1).
    destruct (Hpost1 _ _ eq_refl) as (Hnew & _).
    destruct (v2.ReadBatch codes NewReader fuel2 now2 wire2 s1) as [o2 s2] eqn:Hrun2.
    destruct (ReadBatch_sound _ _ _ _ _ _ Hwf1 Hrun2) as (Hwf2 & Hext2 & _).
    cbn [snd].
    assert (Forall (handed_out s1) (lj.items (lj.Events b))) as Hout.
    { eapply Forall_impl; [exact Hnew|]. by intros e (? & _). }
    split_and!.
    + by destruct Hext1 as (_ & _ & _ & ?).
    + by destruct Hext2 as (_ & _ & _ & ?).
    + eapply Forall_impl; [exact Hnew|]. by intros e (_ & ? & _).
    + done.
    + eapply Forall_impl; [exact Hout|]. intros e. by apply handed_out_extends.
    + unfold payloads. apply List.map_ext_Forall.
      eapply Forall_impl; [exact Hout|]. intros e. by apply load_extends.
Qed.

End Loop.

(** ** Frames read from the wire *)

(** The loop over the limit reader ends when nothing is left to read:
    with enough rounds it reads every byte, and its outcome is what the
    limit reader meets after them. *)
Lemma drain_spec n limit :
  length (io.avail limit) ≤ n →
  v2.drain n limit
  = match io.fin limit with
    | io.Fails EOF => Ok {| io.avail := []; io.fin := io.fin limit |}
    | io.Fails e => Err e
    | io.Hangs => Hang
    end.
Proof.
  revert limit. induction n as [|n IH]; intros [bs e] Hn; cbn in *.
  - destruct bs; [by destruct e as [[]|]|cbn in Hn; lia].
  - destruct bs as [|b bs]; [by destruct e as [[]|]|].
    rewrite IH; [done|]. cbn in *. rewrite length_drop. lia.
Qed.

(** When the loop returns, it has read the limit reader to its end. *)
Lemma drain_empties n limit limit' :
  v2.drain n limit = Ok limit' →
  io.avail limit' = [] ∧ io.fin limit' = io.fin limit.
Proof.
  revert limit. induction n as [|n IH]; intros [bs e]; cbn.
  - destruct bs; [|done]. destruct e as [[]|]; try done. by intros [= <-].
  - destruct bs as [|b bs].
    + destruct e as [[]|]; try done. by intros [= <-].
    + intros Hd. by destruct (IH _ Hd).
Qed.

(** Once the limit reader is read to its end, the stream behind it has
    moved on by the limit, or to its own end when that comes first. *)
Lemma behind_drained r n limit' :
  io.avail limit' = [] →
  io.behind r n limit' = io.advance n r.
Proof.
  intros Hl. unfold io.behind, io.advance, io.LimitReader. cbn [io.avail io.fin].
  rewrite Hl, length_take. cbn [length]. rewrite Nat.sub_0_r.
  f_equal. destruct (decide (n ≤ length (io.avail r))) as [Hle|Hgt].
  - by rewrite Nat.min_l.
  - rewrite Nat.min_r by lia. by rewrite !drop_ge by lia.
Qed.

(** A data frame that is all there is read whole. *)
Lemma readJSONEvent_ok inp s :
  let n := N.to_nat (binary.Uint32 (drop 4 (take 8 (io.avail inp)))) in
  8 + n ≤ length (io.avail inp) →
  ∃ ev, fst (v2.readJSONEvent inp s) = Ok (ev, io.advance (8 + n) inp).
Proof.
  cbn zeta. intros Hn. destruct s as [r h].
  unfold v2.readJSONEvent. unfold v2.bind at 1. unfold v2.lift at 1.
  unfold v2.readFull, io.ReadFull. rewrite decide_True by lia.
  unfold v2.bind at 1.
  destruct (v2.growBuf _ (r, h)) as [o1 [r1 h1]] eqn:Hg.
  assert (o1 = Ok tt) as ->.
  { unfold v2.growBuf in Hg. case_decide; [|congruence].
    destruct (mem.make _ _ _). congruence. }
  unfold v2.bind at 1. unfold v2.getBuf at 1. cbn [fst snd].
  unfold v2.bind at 1. unfold v2.readFullAt at 1. unfold io.ReadFull.
  cbn [mem.len mem.reslice io.avail io.advance io.fin].
  rewrite decide_True by (rewrite length_drop; lia).
  unfold v2.bind at 1. unfold v2.copyOut at 1.
  destruct (mem.clone _ _) as [ev h3]. exists ev. cbn.
  unfold io.advance. cbn. by rewrite drop_drop.
Qed.

Lemma readJSONEvent_frame (seq : N) p tail e s :
  wf s → (seq < 2 ^ 32)%N → (N.of_nat (length p) < 2 ^ 32)%N →
  ∃ ev s',
    v2.readJSONEvent
      {| io.avail := binary.PutUint32 seq
                     ++ binary.PutUint32 (N.of_nat (length p)) ++ p ++ tail;
         io.fin := e |} s
    = (Ok (ev, {| io.avail := tail; io.fin := e |}), s')
    ∧ wf s' ∧ extends s s' ∧ new_event s s' ev ∧ mem.load (snd s') ev = p.
Proof.
  intros Hwf Hseq Hp.
  set (inp := {| io.avail := _; io.fin := e |}).
  assert (N.to_nat (binary.Uint32 (drop 4 (take 8 (io.avail inp)))) = length p) as Hn.
  { subst inp. cbn [io.avail].
    change (drop 4 (take 8 (binary.PutUint32 seq ++ ?x)))
      with (take 4 x).
    change (take 4 (binary.PutUint32 (N.of_nat (length p)) ++ p ++ tail))
      with (binary.PutUint32 (N.of_nat (length p)) ++ []).
    rewrite Uint32_PutUint32 by done. lia. }
  assert (drop 8 (io.avail inp) = p ++ tail) as Hd by done.
  destruct (readJSONEvent_ok inp s) as [ev Hok].
  { rewrite Hn. subst inp. cbn [io.avail].
    rewrite !length_app, !length_PutUint32. lia. }
  destruct (v2.readJSONEvent inp s) as [o s'] eqn:Hj. cbn [fst] in Hok. subst o.
  destruct (readJSONEvent_sound _ _ _ _ Hwf Hj) as (Hwf' & Hext & _ & Hpost).
  destruct (Hpost _ _ eq_refl) as (Hnew & Hload & _ & _ & _).
  rewrite Hn in *. exists ev, s'. split_and!; try done.
  - f_equal. f_equal. unfold io.advance. f_equal.
    change (drop (8 + length p) (io.avail inp)) with (drop (length p) (p ++ tail)).
    by rewrite drop_app_length.
  - rewrite Hload, Hd. by rewrite take_app_length.
Qed.

Section FrameLoop.

Context (codes : protocol.Codes) (NewReader : zlib.NewReaderT).

(** The loop leaves at once when the events have reached the capacity. *)
Lemma readEvents_full fuel inp evs s :
  ¬ length (lj.items evs) < lj.cap evs →
  v2.readEvents codes NewReader fuel inp evs s = (Ok (evs, inp), s).
Proof. intros H. destruct fuel; cbn; by rewrite decide_False. Qed.

Lemma completes_nonempty n bs evs :
  completes codes NewReader n bs evs → 0 < length evs ∧ 0 < n.
Proof. induction 1; cbn; lia. Qed.

(** The two frame types of the switch in [readEvents] are different
    codes. *)
Hypothesis codes_distinct :
  protocol.CodeJSONDataFrame codes ≠ protocol.CodeCompressed codes.

Lemma readEvents_data_step fuel (seq : N) p tail e done cap s :
  wf s → (seq < 2 ^ 32)%N → (N.of_nat (length p) < 2 ^ 32)%N →
  length done < cap →
  ∃ ev s1,
    wf s1 ∧ extends s s1 ∧ new_event s s1 ev ∧ mem.load (snd s1) ev = p
    ∧ v2.readEvents codes NewReader (S fuel)
        {| io.avail := frames.data codes seq p ++ tail; io.fin := e |}
        {| lj.items := done; lj.cap := cap |} s
      = v2.readEvents codes NewReader fuel
          {| io.avail := tail; io.fin := e |}
          {| lj.items := done ++ [ev]; lj.cap := cap |} s1.
Proof.
  intros Hwf Hseq Hp Hlt.
  destruct (readJSONEvent_frame seq p tail e s Hwf Hseq Hp)
    as (ev & s1 & Hj & Hwf1 & Hext1 & Hnew & Hload).
  exists ev, s1. split_and!; try done.
  cbn [v2.readEvents lj.items lj.cap]. rewrite decide_True by done.
  unfold frames.data. rewrite <-!app_assoc.
  unfold v2.bind at 1. unfold v2.lift at 1.
  rewrite (readFull_app [_; _]) by done.
  cbn [lookup_total list_lookup_total].
  rewrite decide_False by (intros H; by apply H).
  rewrite decide_True by done.
  unfold v2.bind at 1. rewrite Hj.
  unfold lj.append. cbn [lj.items lj.cap].
  replace (Nat.max cap (S (length done))) with cap by lia.
  done.
Qed.

Lemma readEvents_completes n bs evs :
  completes codes NewReader n bs evs →
  ∀ fuel tail e done cap s,
    n ≤ fuel → wf s → length done + length evs = cap →
    ∃ new s',
      v2.readEvents codes NewReader fuel
        {| io.avail := bs ++ tail; io.fin := e |}
        {| lj.items := done; lj.cap := cap |} s
      = (Ok ({| lj.items := done ++ new; lj.cap := cap |},
             {| io.avail := tail; io.fin := e |}), s')
      ∧ wf s' ∧ extends s s'
      ∧ Forall (new_event s s') new
      ∧ map (mem.load (snd s')) new = evs.
Proof.
  induction 1 as [seq p Hseq Hp|n seq p bs evs Hseq Hp Hc IH
                  |n payload inner evs Hpl Hinf Hc IH];
    intros fuel tail e done cap s Hfuel Hwf Hlen.
  - destruct fuel as [|fuel]; [lia|]. cbn in Hlen.
    destruct (readEvents_data_step fuel seq p tail e done cap s)
      as (ev & s1 & Hwf1 & Hext1 & Hnew & Hload & ->); [done..|lia|].
    rewrite readEvents_full by (cbn; rewrite length_app; cbn; lia).
    exists [ev], s1. split_and!; try done.
    + by constructor.
    + cbn. by rewrite Hload.
  - destruct fuel as [|fuel]; [lia|]. cbn in Hlen.
    rewrite <-app_assoc.
    destruct (readEvents_data_step fuel seq p (bs ++ tail) e done cap s)
      as (ev & s1 & Hwf1 & Hext1 & Hnew & Hload & ->); [done..|lia|].
    destruct (IH fuel tail e (done ++ [ev]) cap s1)
      as (new & s' & -> & Hwf' & Hext' & Hnew' & Hloads);
      [lia|done|rewrite length_app; cbn; lia|].
    exists (ev :: new), s'. rewrite <-app_assoc. split_and!; try done.
    + by eapply extends_trans.
    + constructor.
      * eapply new_event_weaken; [apply extends_refl|exact Hext'|done].
      * eapply Forall_impl; [exact Hnew'|]. intros x Hx.
        eapply new_event_weaken; [exact Hext1|apply extends_refl|done].
    + cbn. rewrite Hloads. f_equal. rewrite <-Hload.
      apply load_extends; [done|]. by destruct Hnew.
  - destruct fuel as [|fuel]; [lia|].
    destruct (completes_nonempty _ _ _ Hc) as [Hne _].
    destruct Hinf as (z & junk & Hz & Hplain & Hclose).
    cbn [v2.readEvents lj.items lj.cap]. rewrite decide_True by lia.
    unfold frames.compressed. rewrite <-!app_assoc.
    unfold v2.bind at 1. unfold v2.lift at 1.
    rewrite (readFull_app [_; _]) by done.
    cbn [lookup_total list_lookup_total].
    rewrite decide_False by (intros H; by apply H).
    rewrite decide_False by (intros H; by apply codes_distinct).
    rewrite decide_True by done.
    unfold v2.bind at 1. unfold v2.readCompressedWith.
    unfold v2.bind at 1. unfold v2.lift at 1.
    rewrite (readFull_app (binary.PutUint32 _)) by done.
    rewrite Uint32_PutUint32_only by done. rewrite Nat2N.id.
    unfold v2.bind at 1. unfold v2.lift at 1.
    unfold io.LimitReader at 1. cbn [io.avail io.fin].
    rewrite take_app_length.
    rewrite decide_True by (rewrite length_app; lia).
    rewrite Hz.
    unfold v2.bind at 1.
    destruct (zlib.plain z) as [pl pfin] eqn:Hpl_eq. cbn [io.avail] in Hplain.
    subst pl.
    destruct (IH fuel junk pfin done cap s)
      as (new & s' & -> & Hwf' & Hext' & Hnew' & Hloads); [lia|done|done|].
    cbn [io.avail]. rewrite length_app.
    replace (length inner + length junk - length junk) with (length inner) by lia.
    rewrite Hclose.
    unfold v2.bind at 1. unfold v2.lift at 1.
    rewrite drain_spec by done.
    unfold io.advance at 1. cbn [io.fin io.LimitReader io.avail].
    rewrite decide_True by (rewrite length_app; lia).
    unfold v2.ret at 1. rewrite behind_drained by done.
    unfold io.advance. cbn [io.avail io.fin].
    rewrite drop_app_length.
    assert (length new = length evs) as Hnl
        by (by rewrite <-Hloads, length_map).
    rewrite readEvents_full
      by (cbn [lj.items lj.cap]; rewrite length_app; lia).
    exists new, s'. by split_and!.
Qed.

End FrameLoop.

Section Grammar.

Context (codes : protocol.Codes) (NewReader : zlib.NewReaderT).

(** The streams that complete a window are among the streams that
    deliver its payloads. *)
Lemma completes_delivers n bs evs :
  completes codes NewReader n bs evs → delivers codes NewReader bs evs.
Proof.
  induction 1 as [seq p Hseq Hp|n seq p bs evs Hseq Hp Hc IH
                  |n payload inner evs Hpl Hinf Hc IH].
  - rewrite <-(app_nil_r (frames.data codes seq p)).
    apply delivers_data; [done..|constructor].
  - by apply delivers_data.
  - rewrite <-(app_nil_r (frames.compressed codes payload)), <-(app_nil_r evs).
    eapply delivers_compressed; [done..|constructor].
Qed.

End Grammar.

Section Batches.

Context (codes : protocol.Codes) (NewReader : zlib.NewReaderT).

Hypothesis codes_distinct :
  protocol.CodeJSONDataFrame codes ≠ protocol.CodeCompressed codes.

(** [ReadBatch] on a window followed by a stream that completes it. *)
Lemma window_then_completes fuel now n bs evs rest r h :
  wf (r, h) →
  v2.deadline_fault (v2.conn r) = None →
  completes codes NewReader n bs evs →
  n ≤ fuel →
  (N.of_nat (length evs) < 2 ^ 32)%N →
  ∃ b s',
    v2.ReadBatch codes NewReader fuel now
      (frames.window codes (N.of_nat (length evs)) ++ bs ++ rest) (r, h)
    = (Ok (Some b, rest), s')
    ∧ payloads (snd s') b = evs
    ∧ length (lj.items (lj.Events b)) = length evs.
Proof.
  intros Hwf Hf Hc Hfuel HK.
  destruct (completes_nonempty _ _ _ _ _ Hc) as [Hne _].
  rewrite ReadBatch_window by done. cbn zeta.
  rewrite decide_False by lia. rewrite Hf.
  set (c2 := snd (v2.SetReadDeadline _ _)).
  destruct (readEvents_completes codes NewReader codes_distinct n bs evs Hc fuel rest
              (io.fin (v2.conn_reader c2 rest)) [] (N.to_nat (N.of_nat (length evs)))
              (v2.set_conn r c2, h))
    as (new & s' & Hrun & Hwf' & Hext' & Hnew & Hloads); [done|done|cbn; lia|].
  unfold v2.bind.
  change (v2.conn_reader c2 (bs ++ rest))
    with {| io.avail := bs ++ rest; io.fin := io.fin (v2.conn_reader c2 rest) |}.
  rewrite Hrun. cbn [v2.ret app io.avail].
  eexists _, _. split; [reflexivity|]. cbn [snd].
  unfold payloads. cbn [lj.items lj.Events lj.NewBatch].
  split; [done|]. by rewrite <-Hloads, length_map.
Qed.

(** C2, as the code has it.  After a window of [K > 0] events, a stream
    that delivers [K] payloads in data frames, or in data frames followed
    by one compressed frame that holds all the payloads still due (in
    data frames, or again ending in such a compressed frame), makes
    [ReadBatch] return a batch of exactly these [K] payloads in the order
    of the wire, and leaves what follows unread.  The loop ends on the
    count: a batch that is returned always holds as many events as the
    window declared, and with the count reached nothing more is read. *)
Theorem ReadBatch_completes fuel now n bs evs rest r h :
  wf (r, h) →
  v2.deadline_fault (v2.conn r) = None →
  completes codes NewReader n bs evs →
  n ≤ fuel →
  (N.of_nat (length evs) < 2 ^ 32)%N →
  (∃ b s',
     v2.ReadBatch codes NewReader fuel now
       (frames.window codes (N.of_nat (length evs)) ++ bs ++ rest) (r, h)
     = (Ok (Some b, rest), s')
     ∧ payloads (snd s') b = evs
     ∧ length (lj.items (lj.Events b)) = length evs)
  ∧ (∀ wire b rest' s',
       v2.ReadBatch codes NewReader fuel now wire (r, h) = (Ok (Some b, rest'), s') →
       length (lj.items (lj.Events b))
       = N.to_nat (binary.Uint32 (drop 2 (take 6 wire))))
  ∧ (∀ inp events s,
       ¬ length (lj.items events) < lj.cap events →
       v2.readEvents codes NewReader fuel inp events s = (Ok (events, inp), s)).
Proof.
  intros Hwf Hf Hc Hfuel HK. split_and!.
  - by eapply window_then_completes.
  - intros wire b rest' s' Hrun.
    destruct (ReadBatch_sound _ _ _ _ _ _ _ _ Hwf Hrun) as (_ & _ & Hpost).
    by destruct (Hpost _ _ eq_refl).
  - intros inp events s. apply readEvents_full.
Qed.

Lemma completes_data_frames (events : list (N * list byte)) :
  events ≠ [] →
  Forall (λ ev, (fst ev < 2 ^ 32)%N ∧ (N.of_nat (length (snd ev)) < 2 ^ 32)%N) events →
  completes codes NewReader (length events)
    (frames.data_frames codes events) (map snd events).
Proof.
  intros Hne Hall. induction Hall as [|[seq p] events [Hs Hp] Hall IH]; [done|].
  destruct events as [|ev events].
  - cbn. rewrite app_nil_r. by constructor.
  - change (frames.data_frames codes ((seq, p) :: ev :: events))
      with (frames.data codes seq p ++ frames.data_frames codes (ev :: events)).
    cbn [map length snd fst]. constructor; [done..|]. by apply IH.
Qed.

(** C3. For every sequence of events, the window that delivers them in
    one compressed frame and the window that delivers them as data frames
    hand the caller the same payloads, byte for byte and in the same
    order: the payloads of the events.  [payload] is any compressed view
    that the zlib reader inflates to the data frames of the events. *)
Theorem compressed_same_as_data_frames fuel now (events : list (N * list byte))
    payload rest r h :
  wf (r, h) →
  v2.deadline_fault (v2.conn r) = None →
  Forall (λ ev, (fst ev < 2 ^ 32)%N ∧ (N.of_nat (length (snd ev)) < 2 ^ 32)%N) events →
  (N.of_nat (length events) < 2 ^ 32)%N →
  (N.of_nat (length payload) < 2 ^ 32)%N →
  inflates NewReader payload (frames.data_frames codes events) →
  length events < fuel →
  received (v2.ReadBatch codes NewReader fuel now
              (frames.window codes (N.of_nat (length events))
               ++ frames.compressed codes payload ++ rest) (r, h))
  = Ok (map snd events)
  ∧ received (v2.ReadBatch codes NewReader fuel now
                (frames.window codes (N.of_nat (length events))
                 ++ frames.data_frames codes events ++ rest) (r, h))
    = Ok (map snd events).
Proof.
  intros Hwf Hf Hall HK Hpl Hinf Hfuel.
  destruct (decide (events = [])) as [->|Hne].
  { cbn [length N.of_nat]. by rewrite !ReadBatch_zero_window. }
  pose proof (completes_data_frames events Hne Hall) as Hd.
  assert (completes codes NewReader (S (length events))
            (frames.compressed codes payload) (map snd events)) as Hc
      by (by eapply completes_compressed).
  rewrite <-(length_map snd events) in HK.
  split.
  - destruct (window_then_completes fuel now _ _ _ rest r h Hwf Hf Hc)
      as (b & s' & Hrun & Hpay & _); [lia|done|].
    rewrite length_map in Hrun. unfold received. rewrite Hrun. cbn. by rewrite Hpay.
  - destruct (window_then_completes fuel now _ _ _ rest r h Hwf Hf Hd)
      as (b & s' & Hrun & Hpay & _); [lia|done|].
    rewrite length_map in Hrun. unfold received. rewrite Hrun. cbn. by rewrite Hpay.
Qed.

(** C10. The decoder handed to [newReader] plays no part in [ReadBatch].
    With any other decoder in its place (one that rejects every payload,
    one that changes it) a call has the same outcome, the same batch and
    the same unread bytes, and leaves the same buffer and heap; the
    decoder itself is passed along untouched.  And whatever the decoder,
    the payloads of the batch returned for a window that a stream
    completes are the payloads as they are on the wire. *)
Theorem ReadBatch_ignores_decoder fuel now r h d :
  (∀ wire,
     v2.ReadBatch codes NewReader fuel now wire (v2.set_decoder r d, h)
     = let '(o, (r', h')) := v2.ReadBatch codes NewReader fuel now wire (r, h) in
       (o, (v2.set_decoder r' d, h')))
  ∧ (∀ n bs evs rest,
       wf (r, h) →
       v2.deadline_fault (v2.conn r) = None →
       completes codes NewReader n bs evs →
       n ≤ fuel →
       (N.of_nat (length evs) < 2 ^ 32)%N →
       received (v2.ReadBatch codes NewReader fuel now
                   (frames.window codes (N.of_nat (length evs)) ++ bs ++ rest)
                   (v2.set_decoder r d, h))
       = Ok evs).
Proof.
  split.
  - intros wire. apply ReadBatch_set_decoder.
  - intros n bs evs rest Hwf Hf Hc Hfuel HK.
    destruct (window_then_completes fuel now n bs evs rest (v2.set_decoder r d) h)
      as (b & s' & Hrun & Hpay & _); [done..|].
    unfold received. rewrite Hrun. cbn. by rewrite Hpay.
Qed.

End Batches.

Section Compressed.

Context (codes : protocol.Codes) (NewReader : zlib.NewReaderT).

(** C7, as the code has it.  When [readCompressed] returns without an
    error on a stream that holds the [N] bytes the frame declares after
    its four-byte length, the stream is left right after these [4 + N]
    bytes: whatever part of them the zlib reader took in, and whatever
    padding follows the compressed data, the loop over the limit reader
    has read the rest. *)
Theorem readCompressed_consumes fuel inp events s events' rest s' :
  v2.readCompressed codes NewReader fuel inp events s = (Ok (events', rest), s') →
  4 + N.to_nat (binary.Uint32 (take 4 (io.avail inp))) ≤ length (io.avail inp) →
  io.avail rest
  = drop (4 + N.to_nat (binary.Uint32 (take 4 (io.avail inp)))) (io.avail inp)
  ∧ io.fin rest = io.fin inp
  ∧ length (io.avail inp) - length (io.avail rest)
    = 4 + N.to_nat (binary.Uint32 (take 4 (io.avail inp))).
Proof.
  unfold v2.readCompressed, v2.readCompressedWith.
  unfold v2.bind at 1. unfold v2.lift at 1. unfold v2.readFull, io.ReadFull.
  intros Hrun Hlen. rewrite decide_True in Hrun by lia.
  set (n := N.to_nat (binary.Uint32 (take 4 (io.avail inp)))) in *.
  unfold v2.bind at 1 in Hrun. unfold v2.lift at 1 in Hrun.
  destruct (NewReader _) as [z| | |]; try done.
  unfold v2.bind at 1 in Hrun.
  destruct (v2.readEvents _ _ _ _ _ _) as [[[ev1 rest1]| | |] s1]; try done.
  destruct (zlib.Close z _); [done|].
  unfold v2.bind at 1 in Hrun. unfold v2.lift at 1 in Hrun.
  destruct (v2.drain _ _) as [drained| | |] eqn:Hdrain; try done.
  destruct (drain_empties _ _ _ Hdrain) as [Hempty _].
  injection Hrun as <- <- <-.
  rewrite behind_drained by done.
  unfold io.advance. cbn [io.avail io.fin]. rewrite drop_drop.
  split_and!; [done..|]. rewrite length_drop. lia.
Qed.

End Compressed.

Import example.

Lemma lumberjack2_distinct :
  protocol.CodeJSONDataFrame L ≠ protocol.CodeCompressed L.
Proof. done. Qed.

Lemma fresh_wf c : wf (fresh c).
Proof. apply newReader_wf. Qed.

(** C1. The window check lets a frame through when only one of its two
    bytes is off: version '1' with type 'W', and version '2' with type
    'X', both with count 0, are answered with the nil batch, and a window
    of version '1' that announces one event is answered with the batch. *)
Theorem ReadBatch_accepts_lone_mismatch :
  fst (v2.ReadBatch L zlib.stored 0 0 ([x31; x57] ++ binary.PutUint32 0)
         (fresh plain_conn)) = Ok (None, [])
  ∧ fst (v2.ReadBatch L zlib.stored 0 0 ([x32; x58] ++ binary.PutUint32 0)
           (fresh plain_conn)) = Ok (None, [])
  ∧ received (v2.ReadBatch L zlib.stored 1 0
                ([x31; x57] ++ binary.PutUint32 1 ++ frames.data L 1 a1)
                (fresh plain_conn)) = Ok [a1].
Proof. vm_compute. done. Qed.

(** C2, refuted as stated: a window of two events, the first in a
    compressed frame and the second in a data frame, is a stream that
    delivers two payloads, and [ReadBatch] answers it with [io.EOF],
    with any fuel that lets the call return. *)
Lemma mixed_window_fails :
  delivers L zlib.stored compressed_then_plain [a1; b22]
  ∧ fst (v2.ReadBatch L zlib.stored 3 0
           (frames.window L 2 ++ compressed_then_plain) (fresh plain_conn))
    = Err EOF
  ∧ (∀ fuel, 3 ≤ fuel →
       fst (v2.ReadBatch L zlib.stored fuel 0
              (frames.window L 2 ++ compressed_then_plain) (fresh plain_conn))
       = Err EOF).
Proof.
  assert (fst (v2.ReadBatch L zlib.stored 3 0
                 (frames.window L 2 ++ compressed_then_plain) (fresh plain_conn))
          = Err EOF) as Hrun by (vm_compute; reflexivity).
  split_and!; [|exact Hrun|].
  - apply (delivers_compressed L zlib.stored
             (zlib.store_block (frames.data L 1 a1)) (frames.data L 1 a1)
             [a1] (frames.data L 2 b22) [b22]).
    + vm_compute. reflexivity.
    + eexists _, []. split_and!; [vm_compute; reflexivity|vm_compute; reflexivity|done].
    + rewrite <-(app_nil_r (frames.data L 1 a1)).
      apply delivers_data; [done|vm_compute; reflexivity|constructor].
    + rewrite <-(app_nil_r (frames.data L 2 b22)).
      apply delivers_data; [done|vm_compute; reflexivity|constructor].
  - intros fuel Hfuel.
    rewrite (ReadBatch_fuel_le L zlib.stored 3 fuel); [exact Hrun|done|].
    by rewrite Hrun.
Qed.

Lemma plain_then_compressed_completes :
  completes L zlib.stored 3 plain_then_compressed [a1; b22].
Proof.
  apply completes_data; [done|vm_compute; done|].
  apply (completes_compressed L zlib.stored 1 _ (frames.data L 2 b22)).
  - vm_compute. done.
  - eexists _, []. split_and!; [vm_compute; reflexivity|vm_compute; done|done].
  - apply completes_last; [done|vm_compute; done].
Qed.

Lemma ReadBatch_completes_witness :
  wf (fresh plain_conn)
  ∧ completes L zlib.stored 3 plain_then_compressed [a1; b22]
  ∧ ∃ b s',
      v2.ReadBatch L zlib.stored 5 0
        (frames.window L 2 ++ plain_then_compressed ++ [x32]) (fresh plain_conn)
      = (Ok (Some b, [x32]), s')
      ∧ payloads (snd s') b = [a1; b22]
      ∧ length (lj.items (lj.Events b)) = 2.
Proof.
  split; [apply fresh_wf|]. split; [apply plain_then_compressed_completes|].
  apply (ReadBatch_completes L zlib.stored lumberjack2_distinct 5 0 3
           plain_then_compressed [a1; b22] [x32]
           (fst (fresh plain_conn)) (snd (fresh plain_conn))
           (fresh_wf plain_conn) eq_refl plain_then_compressed_completes);
    [lia|vm_compute; done].
Defined.

Lemma two_plain_inflates :
  inflates zlib.stored (zlib.store_block two_plain ++ [x00; x00])
    (frames.data_frames L [(1%N, a1); (2%N, b22)]).
Proof.
  eexists _, []. split_and!; [vm_compute; reflexivity|vm_compute; done|done].
Qed.

Lemma compressed_same_as_data_frames_witness :
  received (v2.ReadBatch L zlib.stored 5 0
              (frames.window L 2 ++ two_compressed ++ [x32]) (fresh plain_conn))
  = Ok [a1; b22]
  ∧ received (v2.ReadBatch L zlib.stored 5 0
                (frames.window L 2 ++ two_plain ++ [x32]) (fresh plain_conn))
    = Ok [a1; b22].
Proof.
  apply (compressed_same_as_data_frames L zlib.stored lumberjack2_distinct 5 0
           [(1%N, a1); (2%N, b22)] (zlib.store_block two_plain ++ [x00; x00]) [x32]
           (fst (fresh plain_conn)) (snd (fresh plain_conn))
           (fresh_wf plain_conn) eq_refl).
  - repeat constructor; vm_compute; done.
  - vm_compute. done.
  - vm_compute. done.
  - apply two_plain_inflates.
  - cbn. lia.
Defined.

(** C7, refuted as stated: a compressed frame that declares 100 bytes,
    on a connection the peer closes after the 28 bytes of the zlib
    stream, is read without an error, and 32 bytes were consumed, not
    104. *)
Lemma truncated_frame_consumes_less :
  let inp := v2.conn_reader closing_conn (drop 2 truncated) in
  ∃ events' rest s',
    v2.readCompressed L zlib.stored 100 inp
      {| lj.items := []; lj.cap := 1 |} (fresh closing_conn)
    = (Ok (events', rest), s')
    ∧ N.to_nat (binary.Uint32 (take 4 (io.avail inp))) = 100
    ∧ length (io.avail inp) - length (io.avail rest) = 32.
Proof.
  cbn zeta. eexists _, _, _. split; [vm_compute; reflexivity|].
  split; vm_compute; reflexivity.
Qed.

Lemma readCompressed_consumes_witness :
  let inp := v2.conn_reader plain_conn (drop 2 two_compressed ++ [x32]) in
  ∃ events' rest s',
    v2.readCompressed L zlib.stored 5 inp
      {| lj.items := []; lj.cap := 2 |} (fresh plain_conn)
    = (Ok (events', rest), s')
    ∧ N.to_nat (binary.Uint32 (take 4 (io.avail inp))) = 48
    ∧ io.avail rest = [x32]
    ∧ length (io.avail inp) - length (io.avail rest) = 4 + 48.
Proof.
  cbn zeta.
  eassert (v2.readCompressed L zlib.stored 5
             (v2.conn_reader plain_conn (drop 2 two_compressed ++ [x32]))
             {| lj.items := []; lj.cap := 2 |} (fresh plain_conn)
           = (Ok (_, _), _)) as Hrun by (vm_compute; reflexivity).
  eexists _, _, _. split; [exact Hrun|]. split; [vm_compute; reflexivity|].
  destruct (readCompressed_consumes L zlib.stored 5 _ _ _ _ _ _ Hrun)
    as (H1 & _ & H3); [vm_compute; lia|].
  split; [exact H1|exact H3].
Defined.

Lemma ReadBatch_deadlines_witness :
  v2.deadline_fault plain_conn = None
  ∧ fst (v2.ReadBatch L zlib.stored 1 100 [] (fresh plain_conn)) = Hang
  ∧ fst (v2.ReadBatch L zlib.stored 1 100 (frames.window L 2 ++ []) (fresh plain_conn))
    = Err ErrTimeout.
Proof.
  split; [reflexivity|].
  destruct (ReadBatch_deadlines L zlib.stored 1 100
              (fst (fresh plain_conn)) (snd (fresh plain_conn)) eq_refl)
    as (H1 & _ & _ & H4).
  split.
  - apply (H1 eq_refl []). cbn. lia.
  - apply (H4 eq_refl 2%N []); [lia|lia|cbn; lia].
Defined.

Lemma ReadBatch_client_cert_witness :
  ∃ b rest s',
    v2.ReadBatch L zlib.stored 5 0 (frames.window L 2 ++ two_plain) (fresh tls_conn)
    = (Ok (Some b, rest), s')
    ∧ lj.ClientX509Cert b = Some leaf.
Proof.
  eassert (v2.ReadBatch L zlib.stored 5 0 (frames.window L 2 ++ two_plain)
             (fst (fresh tls_conn), snd (fresh tls_conn))
           = (Ok (Some _, _), _)) as Hrun by (vm_compute; reflexivity).
  eexists _, _, _. split; [exact Hrun|].
  destruct (ReadBatch_client_cert L zlib.stored 5 0 _ _ _ _ _ _ Hrun) as [Hcert _].
  apply Hcert. by exists issuer.
Defined.

Lemma buffer_reuse_keeps_payloads_witness :
  wf (fresh plain_conn)
  ∧ ∃ b rest s1,
      v2.ReadBatch L zlib.stored 5 0 (frames.window L 1 ++ frames.data L 1 b22)
        (fresh plain_conn)
      = (Ok (Some b, rest), s1)
      ∧ let s2 := snd (v2.ReadBatch L zlib.stored 5 0
                         (frames.window L 1 ++ frames.data L 2 a1) s1) in
        payloads (snd s2) b = payloads (snd s1) b
        ∧ payloads (snd s1) b = [b22]
        ∧ v2.buf (fst s2) = v2.buf (fst s1)
        ∧ mem.load (snd s1) (v2.buf (fst s1)) = b22
        ∧ mem.load (snd s2) (v2.buf (fst s2)) = a1 ++ [x7d].
Proof.
  split; [apply fresh_wf|].
  eassert (v2.ReadBatch L zlib.stored 5 0 (frames.window L 1 ++ frames.data L 1 b22)
             (fresh plain_conn)
           = (Ok (Some _, _), _)) as Hrun by (vm_compute; reflexivity).
  eexists _, _, _. split; [exact Hrun|]. cbn zeta.
  destruct (buffer_reuse_keeps_payloads L zlib.stored (fresh plain_conn)
              (fresh_wf plain_conn)) as [_ Hcalls].
  destruct (Hcalls 5 0%Z _ _ _ _ Hrun 5 0%Z (frames.window L 1 ++ frames.data L 2 a1))
    as (_ & _ & _ & _ & _ & Hkeep).
  split; [exact Hkeep|]. split_and!; vm_compute; reflexivity.
Defined.

Lemma ReadBatch_ignores_decoder_witness :
  received (v2.ReadBatch L zlib.stored 5 0
              (frames.window L 2 ++ plain_then_compressed ++ [x32])
              (v2.set_decoder (fst (fresh plain_conn)) reject_all,
               snd (fresh plain_conn)))
  = Ok [a1; b22]
  ∧ fst (v2.ReadBatch L zlib.stored 5 0
           (frames.window L 2 ++ plain_then_compressed ++ [x32])
           (v2.set_decoder (fst (fresh plain_conn)) reject_all,
            snd (fresh plain_conn)))
    = fst (v2.ReadBatch L zlib.stored 5 0
             (frames.window L 2 ++ plain_then_compressed ++ [x32])
             (fresh plain_conn)).
Proof.
  destruct (ReadBatch_ignores_decoder L zlib.stored lumberjack2_distinct 5 0
              (fst (fresh plain_conn)) (snd (fresh plain_conn)) reject_all)
    as [Hsame Hraw].
  split.
  - apply (Hraw 3 plain_then_compressed [a1; b22] [x32] (fresh_wf plain_conn)
             eq_refl plain_then_compressed_completes); [lia|vm_compute; reflexivity].
  - rewrite Hsame.
    change (fst (fresh plain_conn), snd (fresh plain_conn)) with (fresh plain_conn).
    by destruct (v2.ReadBatch _ _ _ _ _ (fresh plain_conn)) as [o [r' h']].
Defined.

(** * Further properties *)

(** * Further properties of the reader *)

(** ** Data frames, one after the other *)

Lemma data_frames_cons codes seq p events :
  frames.data_frames codes ((seq, p) :: events)
  = frames.data codes seq p ++ frames.data_frames codes events.
Proof. done. Qed.

Lemma data_frames_app codes events1 events2 :
  frames.data_frames codes (events1 ++ events2)
  = frames.data_frames codes events1 ++ frames.data_frames codes events2.
Proof.
  unfold frames.data_frames. by rewrite map_app, concat_app.
Qed.

(** A short read on a connection the peer has closed in good order. *)
Lemma readFull_short bs n :
  length bs < n →
  v2.readFull {| io.avail := bs; io.fin := io.Fails EOF |} n
  = Err (match bs with [] => EOF | _ :: _ => ErrUnexpectedEOF end).
Proof.
  intros Hn. unfold v2.readFull, io.ReadFull. cbn [io.avail io.fin].
  rewrite decide_False by lia. by destruct bs.
Qed.

Section Prefix.

Context (codes : protocol.Codes) (NewReader : zlib.NewReaderT).

(** The loop reads the data frames at the head of a stream one by one, as
    long as events are due. *)
Lemma readEvents_data_prefix (events : list (N * list byte)) :
  Forall (λ ev, (fst ev < 2 ^ 32)%N ∧ (N.of_nat (length (snd ev)) < 2 ^ 32)%N) events →
  ∀ fuel tail e done cap s,
    wf s → length done + length events ≤ cap →
    ∃ new s1,
      wf s1 ∧ extends s s1
      ∧ Forall (new_event s s1) new
      ∧ map (mem.load (snd s1)) new = map snd events
      ∧ v2.readEvents codes NewReader (length events + fuel)
          {| io.avail := frames.data_frames codes events ++ tail; io.fin := e |}
          {| lj.items := done; lj.cap := cap |} s
        = v2.readEvents codes NewReader fuel
            {| io.avail := tail; io.fin := e |}
            {| lj.items := done ++ new; lj.cap := cap |} s1.
Proof.
  induction 1 as [|[seq p] events [Hs Hp] Hall IH];
    intros fuel tail e done cap s Hwf Hlen.
  - exists [], s. rewrite app_nil_r. split_and!; try done. apply extends_refl.
  - cbn [length] in Hlen. rewrite data_frames_cons, <-app_assoc.
    cbn [length Nat.add fst snd] in *.
    destruct (readEvents_data_step codes NewReader (length events + fuel) seq p
                (frames.data_frames codes events ++ tail) e done cap s)
      as (ev & s1 & Hwf1 & Hext1 & Hnew1 & Hload1 & ->); [done..|lia|].
    destruct (IH fuel tail e (done ++ [ev]) cap s1)
      as (new & s2 & Hwf2 & Hext2 & Hnew2 & Hload2 & ->);
      [done|rewrite length_app; cbn; lia|].
    exists (ev :: new), s2. rewrite <-app_assoc. split_and!; try done.
    + by eapply extends_trans.
    + constructor.
      * eapply new_event_weaken; [apply extends_refl|exact Hext2|done].
      * eapply Forall_impl; [exact Hnew2|]. intros x Hx.
        eapply new_event_weaken; [exact Hext1|apply extends_refl|done].
    + cbn [map snd]. rewrite Hload2. f_equal. rewrite <-Hload1.
      apply load_extends; [done|]. by destruct Hnew1.
Qed.

(** [ReadBatch] on a window of [K] events followed by fewer data
    frames: what is left to the loop after them. *)
Lemma ReadBatch_data_prefix fuel now (K : N) (events : list (N * list byte)) tail r h :
  wf (r, h) →
  v2.deadline_fault (v2.conn r) = None →
  Forall (λ ev, (fst ev < 2 ^ 32)%N ∧ (N.of_nat (length (snd ev)) < 2 ^ 32)%N) events →
  (K < 2 ^ 32)%N → length events < N.to_nat K →
  ∃ new s1,
    wf s1 ∧ length new = length events
    ∧ fst (v2.ReadBatch codes NewReader (length events + fuel) now
             (frames.window codes K ++ frames.data_frames codes events ++ tail) (r, h))
      = match fst (v2.readEvents codes NewReader fuel
                     {| io.avail := tail;
                        io.fin := match v2.peer (v2.conn r) with
                                  | v2.Closes e => io.Fails e
                                  | v2.Silent => io.Fails ErrTimeout
                                  end |}
                     {| lj.items := new; lj.cap := N.to_nat K |} s1) with
        | Ok (events', in2) =>
            Ok (Some (lj.NewBatch events'
                        (v2.clientX509Cert
                           (snd (v2.SetReadDeadline
                                   (snd (v2.SetReadDeadline (v2.conn r) None))
                                   (Some (now + v2.timeout r)%Z))))),
                io.avail in2)
        | Err e => Err e
        | Hang => Hang
        | OutOfFuel => OutOfFuel
        end.
Proof.
  intros Hwf Hf Hall HK Hlen.
  rewrite ReadBatch_window by done. cbn zeta.
  rewrite decide_False by lia. rewrite Hf.
  set (c2 := snd (v2.SetReadDeadline _ _)).
  destruct (readEvents_data_prefix events Hall fuel tail
              (io.fin (v2.conn_reader c2 tail)) [] (N.to_nat K) (v2.set_conn r c2, h))
    as (new & s1 & Hwf1 & _ & _ & Hload & Hrun); [done|cbn; lia|].
  exists new, s1. split; [done|].
  split; [by rewrite <-(length_map (mem.load (snd s1))), Hload, length_map|].
  unfold v2.bind.
  change (v2.conn_reader c2 (frames.data_frames codes events ++ tail))
    with {| io.avail := frames.data_frames codes events ++ tail;
            io.fin := io.fin (v2.conn_reader c2 tail) |}.
  rewrite Hrun. cbn [app].
  replace (io.fin (v2.conn_reader c2 tail))
    with (match v2.peer (v2.conn r) with
          | v2.Closes e => io.Fails e
          | v2.Silent => io.Fails ErrTimeout
          end).
  2:{ subst c2. unfold v2.conn_reader, v2.SetReadDeadline. cbn. by rewrite Hf. }
  clear Hrun.
  destruct (v2.readEvents _ _ _ _ _ _) as [[[ev in2]| | |] s2]; reflexivity.
Qed.

(** X1. A window of [K] events followed by fewer than [K] data frames,
    and then nothing: [ReadBatch] returns no partial batch but the error
    of the read that finds nothing, [io.EOF] when the peer has closed the
    connection in good order, the error of the connection when it broke,
    the timeout when the peer stays silent. *)
Theorem short_batch_fails fuel now (K : N) (events : list (N * list byte)) r h :
  wf (r, h) →
  v2.deadline_fault (v2.conn r) = None →
  Forall (λ ev, (fst ev < 2 ^ 32)%N ∧ (N.of_nat (length (snd ev)) < 2 ^ 32)%N) events →
  (K < 2 ^ 32)%N → length events < N.to_nat K →
  length events < fuel →
  fst (v2.ReadBatch codes NewReader fuel now
         (frames.window codes K ++ frames.data_frames codes events) (r, h))
  = Err (match v2.peer (v2.conn r) with
         | v2.Closes e => e
         | v2.Silent => ErrTimeout
         end).
Proof.
  intros Hwf Hf Hall HK Hlen Hfuel.
  replace fuel with (length events + S (fuel - S (length events))) by lia.
  rewrite <-(app_nil_r (frames.data_frames codes events)).
  destruct (ReadBatch_data_prefix (S (fuel - S (length events))) now K events [] r h)
    as (new & s1 & Hwf1 & Hnl & ->); [done..|].
  cbn [v2.readEvents lj.items lj.cap]. rewrite decide_True by lia.
  unfold v2.bind, v2.lift, v2.readFull, io.ReadFull. cbn [io.avail io.fin].
  rewrite decide_False by (cbn; lia).
  by destruct (v2.peer (v2.conn r)) as [[]|].
Qed.

(** X4. After a window and any number of data frames short of the count,
    a frame whose version byte is off, or whose type is neither the data
    frame nor the compressed frame (a second window frame, say), makes
    [ReadBatch] return the protocol error and no batch. *)
Theorem bad_frame_is_protocol_error fuel now (K : N) (events : list (N * list byte))
    (v t : byte) rest r h :
  wf (r, h) →
  v2.deadline_fault (v2.conn r) = None →
  Forall (λ ev, (fst ev < 2 ^ 32)%N ∧ (N.of_nat (length (snd ev)) < 2 ^ 32)%N) events →
  (K < 2 ^ 32)%N → length events < N.to_nat K →
  length events < fuel →
  v ≠ protocol.CodeVersion codes
  ∨ (t ≠ protocol.CodeJSONDataFrame codes ∧ t ≠ protocol.CodeCompressed codes) →
  fst (v2.ReadBatch codes NewReader fuel now
         (frames.window codes K ++ frames.data_frames codes events ++ v :: t :: rest)
         (r, h))
  = Err ErrProtocolError.
Proof.
  intros Hwf Hf Hall HK Hlen Hfuel Hbad.
  replace fuel with (length events + S (fuel - S (length events))) by lia.
  destruct (ReadBatch_data_prefix (S (fuel - S (length events))) now K events
              (v :: t :: rest) r h)
    as (new & s1 & Hwf1 & Hnl & ->); [done..|].
  cbn [v2.readEvents lj.items lj.cap]. rewrite decide_True by lia.
  unfold v2.bind at 1. unfold v2.lift at 1.
  rewrite (readFull_app [v; t] rest _ 2) by done.
  cbn [lookup_total list_lookup_total].
  case_decide as Hv; [done|].
  destruct Hbad as [Hbad|[Hj Hc]]; [by destruct Hv|].
  by rewrite !decide_False by done.
Qed.

(** A data frame body cut short on a connection closed in good order. *)
Lemma readJSONEvent_cut (seq : N) p m s :
  (N.of_nat (length p) < 2 ^ 32)%N →
  m < 8 + length p →
  fst (v2.readJSONEvent
         {| io.avail := take m (binary.PutUint32 seq
                                ++ binary.PutUint32 (N.of_nat (length p)) ++ p);
            io.fin := io.Fails EOF |} s)
  = Err (if decide (m = 0 ∨ m = 8) then EOF else ErrUnexpectedEOF).
Proof.
  intros Hp Hm. unfold v2.readJSONEvent.
  unfold v2.bind at 1. unfold v2.lift at 1.
  destruct (decide (m < 8)) as [H8|H8].
  - rewrite readFull_short
      by (rewrite length_take, !length_app, !length_PutUint32; lia).
    cbn [fst]. unfold binary.PutUint32.
    destruct m as [|m]; [done|]. cbn [app take].
    rewrite decide_False by lia. done.
  - replace m with (8 + (m - 8)) by lia.
    change (take (8 + (m - 8)) (binary.PutUint32 seq
              ++ binary.PutUint32 (N.of_nat (length p)) ++ p))
      with ((binary.PutUint32 seq ++ binary.PutUint32 (N.of_nat (length p)))
            ++ take (m - 8) p).
    rewrite readFull_app by done.
    change (drop 4 (binary.PutUint32 seq ++ binary.PutUint32 (N.of_nat (length p))))
      with (binary.PutUint32 (N.of_nat (length p))).
    rewrite Uint32_PutUint32_only by done. rewrite Nat2N.id.
    unfold v2.bind at 1.
    destruct (v2.growBuf (length p) s) as [o1 [r1 h1]] eqn:Hg.
    assert (o1 = Ok tt) as ->.
    { destruct s as [r h]. unfold v2.growBuf in Hg. case_decide; [|congruence].
      destruct (mem.make _ _ _). congruence. }
    unfold v2.bind at 1. unfold v2.getBuf at 1. cbn [fst snd].
    unfold v2.bind at 1. unfold v2.readFullAt at 1. unfold io.ReadFull.
    cbn [mem.len mem.reslice io.avail io.fin].
    rewrite decide_False by (rewrite length_take; lia).
    destruct (decide (m - 8 = 0)) as [->|Hne].
    + cbn. rewrite decide_True by lia. done.
    + destruct (take (m - 8) p) as [|x xs] eqn:Ht.
      { apply (f_equal length) in Ht. rewrite length_take in Ht. cbn in Ht. lia. }
      cbn. rewrite decide_False by lia. done.
Qed.

(** X2. A window followed by data frames short of the count and by the
    first [k] bytes of one more data frame, on a connection the peer
    then closes in good order: the call fails with
    [io.ErrUnexpectedEOF], except when the cut falls between two reads
    of the frame (after its two-byte header, or after the ten bytes
    before a payload), where it fails with [io.EOF] as if the connection
    had been closed between frames. *)
Theorem cut_frame_fails fuel now (K : N) (events : list (N * list byte))
    (seq : N) p k r h :
  wf (r, h) →
  v2.deadline_fault (v2.conn r) = None →
  v2.peer (v2.conn r) = v2.Closes EOF →
  Forall (λ ev, (fst ev < 2 ^ 32)%N ∧ (N.of_nat (length (snd ev)) < 2 ^ 32)%N) events →
  (K < 2 ^ 32)%N → length events < N.to_nat K →
  length events < fuel →
  (N.of_nat (length p) < 2 ^ 32)%N →
  0 < k < length (frames.data codes seq p) →
  fst (v2.ReadBatch codes NewReader fuel now
         (frames.window codes K ++ frames.data_frames codes events
          ++ take k (frames.data codes seq p)) (r, h))
  = Err (if decide (k = 2 ∨ k = 10) then EOF else ErrUnexpectedEOF).
Proof.
  intros Hwf Hf Hpeer Hall HK Hlen Hfuel Hp Hk.
  replace fuel with (length events + S (fuel - S (length events))) by lia.
  destruct (ReadBatch_data_prefix (S (fuel - S (length events))) now K events
              (take k (frames.data codes seq p)) r h)
    as (new & s1 & Hwf1 & Hnl & ->); [done..|].
  rewrite Hpeer.
  cbn [v2.readEvents lj.items lj.cap]. rewrite decide_True by lia.
  unfold frames.data in *. rewrite !length_app, !length_PutUint32 in Hk.
  cbn [length] in Hk.
  destruct k as [|[|m]]; [lia| |].
  - cbn [app take]. unfold v2.bind, v2.lift.
    rewrite readFull_short by (cbn; lia). done.
  - cbn [app take]. unfold v2.bind at 1. unfold v2.lift at 1.
    rewrite (readFull_app
               [protocol.CodeVersion codes; protocol.CodeJSONDataFrame codes]
               (take m (binary.PutUint32 seq
                        ++ binary.PutUint32 (N.of_nat (length p)) ++ p))
               _ 2) by done.
    cbn [lookup_total list_lookup_total].
    rewrite decide_False by (intros H; by apply H).
    rewrite decide_True by done.
    unfold v2.bind at 1.
    pose proof (readJSONEvent_cut seq p m s1 Hp) as Hcut.
    destruct (v2.readJSONEvent _ s1) as [o s2]. cbn [fst] in Hcut.
    rewrite Hcut by lia. cbn [fst].
    destruct (decide (m = 0 ∨ m = 8)); [rewrite decide_True by lia|
                                         rewrite decide_False by lia]; done.
Qed.

(** X3. A call that finds the connection closed in good order before the
    first byte of a window frame returns [io.EOF]; one that finds it
    closed after one to five bytes of the frame returns
    [io.ErrUnexpectedEOF]. *)
Theorem closed_before_window fuel now wire r h :
  v2.peer (v2.conn r) = v2.Closes EOF →
  length wire < 6 →
  fst (v2.ReadBatch codes NewReader fuel now wire (r, h))
  = Err (match wire with [] => EOF | _ :: _ => ErrUnexpectedEOF end).
Proof.
  intros Hpeer Hlen. rewrite ReadBatch_unfold. cbn zeta.
  unfold v2.conn_reader. cbn [v2.SetReadDeadline snd v2.peer]. rewrite Hpeer.
  by rewrite readFull_short.
Qed.

(** X6. When [SetReadDeadline] fails, [ReadBatch] still answers a zero
    window with the nil batch (the error of the clearing call is
    dropped), and answers any other window with the error of the second
    call, before it reads a frame: the bytes after the window, the
    buffer, the heap and the deadline in force are as before. *)
Theorem deadline_fault_fails fuel now (K : N) rest r h e :
  v2.deadline_fault (v2.conn r) = Some e →
  (K < 2 ^ 32)%N →
  let res := v2.ReadBatch codes NewReader fuel now
               (frames.window codes K ++ rest) (r, h) in
  fst res = (if decide (K = 0%N) then Ok (None, rest) else Err e)
  ∧ v2.buf (fst (snd res)) = v2.buf r
  ∧ snd (snd res) = h
  ∧ v2.deadline (v2.conn (fst (snd res))) = v2.deadline (v2.conn r).
Proof.
  intros Hf HK. cbn zeta. rewrite ReadBatch_window by done. cbn zeta.
  rewrite Hf. destruct (decide (K = 0%N)) as [->|Hne].
  - rewrite decide_True by done. cbn. by rewrite Hf.
  - rewrite decide_False by lia. cbn. by rewrite Hf.
Qed.

End Prefix.

(** ** Sequence numbers *)

(** The payload a data frame yields and the state it leaves depend on
    the length field and the payload alone: not on the four bytes before
    them, and not on what follows the frame. *)
Lemma readJSONEvent_payload p e s :
  (N.of_nat (length p) < 2 ^ 32)%N →
  ∃ ev s', ∀ a rest,
    length a = 4 →
    v2.readJSONEvent
      {| io.avail := a ++ binary.PutUint32 (N.of_nat (length p)) ++ p ++ rest;
         io.fin := e |} s
    = (Ok (ev, {| io.avail := rest; io.fin := e |}), s').
Proof.
  intros Hp.
  destruct (v2.growBuf (length p) s) as [o1 [r1 h1]] eqn:Hg.
  assert (o1 = Ok tt) as ->.
  { destruct s as [r h]. unfold v2.growBuf in Hg. case_decide; [|congruence].
    destruct (mem.make _ _ _). congruence. }
  destruct (mem.clone (mem.store h1 (mem.reslice (v2.buf r1) (length p)) p)
              (mem.reslice (v2.buf r1) (length p))) as [ev h3] eqn:Hc.
  exists ev, (r1, h3). intros a rest Ha.
  unfold v2.readJSONEvent. unfold v2.bind at 1. unfold v2.lift at 1.
  rewrite (app_assoc a).
  rewrite (readFull_app (a ++ binary.PutUint32 (N.of_nat (length p))))
    by (rewrite length_app, length_PutUint32; lia).
  rewrite drop_app_length' by done.
  rewrite Uint32_PutUint32_only by done. rewrite Nat2N.id.
  unfold v2.bind at 1. rewrite Hg.
  unfold v2.bind at 1. unfold v2.getBuf at 1. cbn [fst snd].
  unfold v2.bind at 1. unfold v2.readFullAt at 1.
  cbn [mem.len mem.reslice].
  rewrite ReadFull_app by done.
  unfold v2.bind at 1. unfold v2.copyOut at 1. rewrite Hc. done.
Qed.

Section Sequence.

Context (codes : protocol.Codes) (NewReader : zlib.NewReaderT).

(** One round of the loop on a data frame: the event and the state it
    leaves depend on the payload alone. *)
Lemma readEvents_payload_step fuel p e acc cap s :
  (N.of_nat (length p) < 2 ^ 32)%N →
  length acc < cap →
  ∃ ev s', ∀ seq tail,
    v2.readEvents codes NewReader (S fuel)
      {| io.avail := frames.data codes seq p ++ tail; io.fin := e |}
      {| lj.items := acc; lj.cap := cap |} s
    = v2.readEvents codes NewReader fuel
        {| io.avail := tail; io.fin := e |}
        {| lj.items := acc ++ [ev]; lj.cap := cap |} s'.
Proof.
  intros Hp Hlt.
  destruct (readJSONEvent_payload p e s Hp) as (ev & s' & Hj).
  exists ev, s'. intros seq tail.
  rewrite readEvents_round. cbn [lj.items lj.cap].
  rewrite decide_True by done.
  unfold frames.data. rewrite <-!app_assoc.
  unfold v2.bind at 1. unfold v2.lift at 1.
  rewrite (readFull_app [_; _]) by done.
  cbn [lookup_total list_lookup_total].
  rewrite decide_False by (intros H; by apply H).
  rewrite decide_True by done.
  unfold v2.bind at 1. rewrite Hj by apply length_PutUint32.
  unfold lj.append. cbn [lj.items lj.cap].
  replace (Nat.max cap (S (length acc))) with cap by lia.
  done.
Qed.

Lemma readEvents_same_payloads (events1 events2 : list (N * list byte)) :
  Forall2 (λ x y, snd x = snd y) events1 events2 →
  Forall (λ ev, (N.of_nat (length (snd ev)) < 2 ^ 32)%N) events1 →
  ∀ fuel tail e acc cap s,
    length acc + length events1 ≤ cap →
    v2.readEvents codes NewReader fuel
      {| io.avail := frames.data_frames codes events1 ++ tail; io.fin := e |}
      {| lj.items := acc; lj.cap := cap |} s
    = v2.readEvents codes NewReader fuel
        {| io.avail := frames.data_frames codes events2 ++ tail; io.fin := e |}
        {| lj.items := acc; lj.cap := cap |} s.
Proof.
  induction 1 as [|[seq1 p1] [seq2 p2] events1 events2 Hp H2 IH];
    intros Hall fuel tail e acc cap s Hlen; [done|].
  cbn [snd] in Hp. subst p2.
  apply Forall_cons in Hall as [Hb Hall]. cbn [snd] in Hb.
  cbn [length] in Hlen.
  destruct fuel as [|fuel].
  { cbn [v2.readEvents lj.items lj.cap]. by rewrite !decide_True by lia. }
  rewrite !data_frames_cons, <-!app_assoc.
  destruct (readEvents_payload_step fuel p1 e acc cap s Hb) as (ev & s' & Hstep);
    [lia|].
  rewrite !Hstep.
  apply IH; [done|]. rewrite length_app. cbn. lia.
Qed.

(** X5. The sequence numbers of data frames play no part: two streams
    that open with the same window and carry the same payloads in data
    frames, under whatever sequence numbers (repeated, out of order),
    make [ReadBatch] return the same result and leave the same state. *)
Theorem sequence_numbers_ignored fuel now (K : N)
    (events1 events2 : list (N * list byte)) tail s :
  Forall2 (λ x y, snd x = snd y) events1 events2 →
  Forall (λ ev, (N.of_nat (length (snd ev)) < 2 ^ 32)%N) events1 →
  (K < 2 ^ 32)%N → length events1 ≤ N.to_nat K →
  v2.ReadBatch codes NewReader fuel now
    (frames.window codes K ++ frames.data_frames codes events1 ++ tail) s
  = v2.ReadBatch codes NewReader fuel now
      (frames.window codes K ++ frames.data_frames codes events2 ++ tail) s.
Proof.
  intros H2 Hall HK Hlen. destruct s as [r h].
  rewrite !ReadBatch_window by done. cbn zeta.
  case_decide as H0.
  { destruct H2; [done|]. cbn in Hlen. lia. }
  destruct (v2.deadline_fault (v2.conn r)); [done|].
  unfold v2.bind.
  set (c2 := snd (v2.SetReadDeadline _ _)).
  change (v2.conn_reader c2 (frames.data_frames codes events1 ++ tail))
    with {| io.avail := frames.data_frames codes events1 ++ tail;
            io.fin := io.fin (v2.conn_reader c2 tail) |}.
  change (v2.conn_reader c2 (frames.data_frames codes events2 ++ tail))
    with {| io.avail := frames.data_frames codes events2 ++ tail;
            io.fin := io.fin (v2.conn_reader c2 tail) |}.
  rewrite (readEvents_same_payloads events1 events2) by (done || (cbn; lia)).
  done.
Qed.

End Sequence.

(** ** Compressed frames *)

Section Compressed2.

Context (codes : protocol.Codes) (NewReader : zlib.NewReaderT).

(** X14. [readCompressed] returns without an error only if the four
    bytes of the length are there and either all the bytes the frame
    declares are there, or the stream reports [io.EOF] where it ends:
    when a declared byte is missing on a connection that is silent or
    broken, the frame is not accepted, whatever the zlib reader made of
    the bytes that came. *)
Theorem readCompressed_needs_the_bytes fuel inp events s events' rest s' :
  v2.readCompressed codes NewReader fuel inp events s = (Ok (events', rest), s') →
  4 ≤ length (io.avail inp)
  ∧ (4 + N.to_nat (binary.Uint32 (take 4 (io.avail inp))) ≤ length (io.avail inp)
     ∨ io.fin inp = io.Fails EOF).
Proof.
  unfold v2.readCompressed, v2.readCompressedWith.
  unfold v2.bind at 1. unfold v2.lift at 1. unfold v2.readFull, io.ReadFull.
  case_decide as H4; cycle 1.
  { by destruct (io.fin inp) as [[]|]; destruct (io.avail inp). }
  set (n := N.to_nat (binary.Uint32 (take 4 (io.avail inp)))).
  unfold v2.bind at 1. unfold v2.lift at 1.
  destruct (NewReader _) as [z| | |]; try done.
  unfold v2.bind at 1.
  destruct (v2.readEvents _ _ _ _ _ _) as [[[ev1 rest1]| | |] s1]; try done.
  destruct (zlib.Close z _); [done|].
  unfold v2.bind at 1. unfold v2.lift at 1.
  rewrite drain_spec by done.
  cbn [io.advance io.fin io.LimitReader io.avail].
  intros Hrun. split; [done|].
  case_decide as Hn.
  - left. rewrite length_drop in Hn. lia.
  - right. by destruct (io.fin inp) as [[]|].
Qed.

Hypothesis codes_distinct :
  protocol.CodeJSONDataFrame codes ≠ protocol.CodeCompressed codes.

(** The round of the loop that opens a compressed frame whose declared
    bytes are all there. *)
Lemma readEvents_compressed_step fuel payload tail e evs s :
  (N.of_nat (length payload) < 2 ^ 32)%N →
  length (lj.items evs) < lj.cap evs →
  v2.readEvents codes NewReader (S fuel)
    {| io.avail := frames.compressed codes payload ++ tail; io.fin := e |} evs s
  = v2.bind
      (v2.bind (v2.lift (NewReader {| io.avail := payload; io.fin := io.Fails EOF |}))
         (λ reader,
            v2.bind (v2.readEvents codes NewReader fuel (zlib.plain reader) evs)
              (λ '(events', rest),
                 let j := length (io.avail (zlib.plain reader))
                          - length (io.avail rest) in
                 match zlib.Close reader j with
                 | Some err => v2.throw err
                 | None => v2.ret (events', {| io.avail := tail; io.fin := e |})
                 end)))
      (λ '(readEvents', in2), v2.readEvents codes NewReader fuel in2 readEvents')
      s.
Proof.
  intros Hpl Hlt. rewrite readEvents_round. rewrite decide_True by done.
  unfold frames.compressed. rewrite <-!app_assoc.
  unfold v2.bind at 1. unfold v2.lift at 1.
  rewrite (readFull_app [_; _]) by done.
  cbn [lookup_total list_lookup_total].
  rewrite decide_False by (intros H; by apply H).
  rewrite decide_False by (intros H; by apply codes_distinct).
  rewrite decide_True by done.
  unfold v2.readCompressed, v2.readCompressedWith.
  unfold v2.bind at 2. unfold v2.lift at 1.
  rewrite (readFull_app (binary.PutUint32 _)) by done.
  rewrite Uint32_PutUint32_only by done. rewrite Nat2N.id.
  unfold io.LimitReader. cbn [io.avail io.fin].
  rewrite take_app_length.
  rewrite decide_True by (rewrite length_app; lia).
  unfold v2.bind. unfold v2.lift.
  destruct (NewReader _) as [z| | |]; try done.
  destruct (v2.readEvents codes NewReader fuel (zlib.plain z) evs s)
    as [[[ev1 rest1]| | |] s1]; try done.
  destruct (zlib.Close z _); [done|].
  rewrite drain_spec by done. cbn [io.advance io.fin].
  unfold v2.ret. rewrite behind_drained by done.
  unfold io.advance. cbn [io.avail io.fin].
  by rewrite drop_app_length.
Qed.

(** X8. A compressed frame that holds fewer events than are still due
    fails the batch: after a window of [K] events and some data frames,
    a compressed frame whose bytes inflate, in good order, to data
    frames that do not reach the count makes [ReadBatch] return
    [io.EOF], whatever follows the frame on the connection. *)
Theorem sparse_compressed_frame_fails fuel now (K : N)
    (pre events : list (N * list byte)) payload rest r h z :
  wf (r, h) →
  v2.deadline_fault (v2.conn r) = None →
  Forall (λ ev, (fst ev < 2 ^ 32)%N ∧ (N.of_nat (length (snd ev)) < 2 ^ 32)%N) pre →
  Forall (λ ev, (fst ev < 2 ^ 32)%N ∧ (N.of_nat (length (snd ev)) < 2 ^ 32)%N) events →
  (K < 2 ^ 32)%N →
  (N.of_nat (length payload) < 2 ^ 32)%N →
  length pre + length events < N.to_nat K →
  NewReader {| io.avail := payload; io.fin := io.Fails EOF |} = Ok z →
  zlib.plain z = {| io.avail := frames.data_frames codes events;
                    io.fin := io.Fails EOF |} →
  length pre + length events + 1 < fuel →
  fst (v2.ReadBatch codes NewReader fuel now
         (frames.window codes K ++ frames.data_frames codes pre
          ++ frames.compressed codes payload ++ rest) (r, h))
  = Err EOF.
Proof.
  intros Hwf Hf Hpre Hev HK Hpl Hlen Hz Hplain Hfuel.
  replace fuel
    with (length pre + S (length events + S (fuel - length pre - length events - 2)))
    by lia.
  destruct (ReadBatch_data_prefix codes NewReader
              (S (length events + S (fuel - length pre - length events - 2)))
              now K pre (frames.compressed codes payload ++ rest) r h)
    as (new & s1 & Hwf1 & Hnl & ->); [done..|lia|].
  rewrite readEvents_compressed_step by (done || (cbn; lia)).
  unfold v2.bind at 1. unfold v2.bind at 1. unfold v2.lift at 1.
  rewrite Hz. unfold v2.bind at 1. rewrite Hplain.
  rewrite <-(app_nil_r (frames.data_frames codes events)).
  destruct (readEvents_data_prefix codes NewReader events Hev
              (S (fuel - length pre - length events - 2)) [] (io.Fails EOF)
              new (N.to_nat K) s1)
    as (new2 & s2 & Hwf2 & _ & _ & Hload & ->); [done|lia|].
  assert (length new2 = length events) as Hn2
      by (by rewrite <-(length_map (mem.load (snd s2))), Hload, length_map).
  cbn [v2.readEvents lj.items lj.cap].
  assert (length (new ++ new2) < N.to_nat K)
    by (rewrite length_app; unfold lj.RawMessage in *; lia).
  rewrite decide_True by done.
  unfold v2.bind, v2.lift. by rewrite readFull_short by (cbn; lia).
Qed.

(** X7. Events a compressed frame holds beyond the count of the window
    are dropped without a word: when the frame inflates to the data
    frames of the [K] events due followed by more, [ReadBatch] returns
    the batch of the first [K], and the connection is left right after
    the compressed frame. *)
Theorem surplus_events_dropped fuel now (events surplus : list (N * list byte))
    payload rest r h z junk :
  wf (r, h) →
  v2.deadline_fault (v2.conn r) = None →
  events ≠ [] →
  Forall (λ ev, (fst ev < 2 ^ 32)%N ∧ (N.of_nat (length (snd ev)) < 2 ^ 32)%N) events →
  (N.of_nat (length events) < 2 ^ 32)%N →
  (N.of_nat (length payload) < 2 ^ 32)%N →
  NewReader {| io.avail := payload; io.fin := io.Fails EOF |} = Ok z →
  io.avail (zlib.plain z) = frames.data_frames codes (events ++ surplus) ++ junk →
  zlib.Close z (length (frames.data_frames codes events)) = None →
  length events < fuel →
  ∃ b s',
    v2.ReadBatch codes NewReader fuel now
      (frames.window codes (N.of_nat (length events))
       ++ frames.compressed codes payload ++ rest) (r, h)
    = (Ok (Some b, rest), s')
    ∧ payloads (snd s') b = map snd events.
Proof.
  intros Hwf Hf Hne Hall HK Hpl Hz Hplain Hclose Hfuel.
  assert (completes codes NewReader (S (length events))
            (frames.compressed codes payload) (map snd events)) as Hc.
  { eapply completes_compressed; [done| |by apply completes_data_frames].
    exists z, (frames.data_frames codes surplus ++ junk). split_and!; [done| |done].
    by rewrite Hplain, data_frames_app, <-app_assoc. }
  rewrite <-(length_map snd events) in HK.
  destruct (window_then_completes codes NewReader codes_distinct fuel now _ _ _
              rest r h Hwf Hf Hc) as (b & s' & Hrun & Hpay & _); [lia|done|].
  rewrite length_map in Hrun. by exists b, s'.
Qed.

(** X13. What the zlib reader objects to is what [ReadBatch] returns,
    and there is no batch: the error of [zlib.NewReader] when it rejects
    the frame, and the error of [Close] (a bad checksum, say) even when
    every event due was read from the frame before. *)
Theorem zlib_errors_fail_the_batch fuel now n inner evs payload rest r h err :
  wf (r, h) →
  v2.deadline_fault (v2.conn r) = None →
  (N.of_nat (length payload) < 2 ^ 32)%N →
  (N.of_nat (length evs) < 2 ^ 32)%N →
  completes codes NewReader n inner evs →
  n < fuel →
  (NewReader {| io.avail := payload; io.fin := io.Fails EOF |} = Err err →
   fst (v2.ReadBatch codes NewReader fuel now
          (frames.window codes (N.of_nat (length evs))
           ++ frames.compressed codes payload ++ rest) (r, h))
   = Err err)
  ∧ (∀ z junk,
       NewReader {| io.avail := payload; io.fin := io.Fails EOF |} = Ok z →
       io.avail (zlib.plain z) = inner ++ junk →
       zlib.Close z (length inner) = Some err →
       fst (v2.ReadBatch codes NewReader fuel now
              (frames.window codes (N.of_nat (length evs))
               ++ frames.compressed codes payload ++ rest) (r, h))
       = Err err).
Proof.
  intros Hwf Hf Hpl HK Hc Hfuel.
  destruct (completes_nonempty _ _ _ _ _ Hc) as [Hne _].
  destruct fuel as [|fuel]; [lia|].
  assert (∀ o,
    fst (v2.readEvents codes NewReader (S fuel)
           {| io.avail := frames.compressed codes payload ++ rest;
              io.fin := io.fin (v2.conn_reader
                 (snd (v2.SetReadDeadline (snd (v2.SetReadDeadline (v2.conn r) None))
                         (Some (now + v2.timeout r)%Z))) rest) |}
           {| lj.items := []; lj.cap := N.to_nat (N.of_nat (length evs)) |}
           (v2.set_conn r
              (snd (v2.SetReadDeadline (snd (v2.SetReadDeadline (v2.conn r) None))
                      (Some (now + v2.timeout r)%Z))), h)) = Err o →
    fst (v2.ReadBatch codes NewReader (S fuel) now
           (frames.window codes (N.of_nat (length evs))
            ++ frames.compressed codes payload ++ rest) (r, h)) = Err o) as Hlift.
  { intros o Ho. rewrite ReadBatch_window by done. cbn zeta.
    rewrite decide_False by lia. rewrite Hf. unfold v2.bind.
    match type of Ho with fst ?t = _ => change (fst t = Err o) in Ho end.
    match goal with
    | |- context [v2.readEvents ?a ?b ?c ?d ?e ?f] =>
        change (v2.readEvents a b c d e f)
          with (v2.readEvents codes NewReader (S fuel)
                  {| io.avail := frames.compressed codes payload ++ rest;
                     io.fin := io.fin (v2.conn_reader
                        (snd (v2.SetReadDeadline
                                (snd (v2.SetReadDeadline (v2.conn r) None))
                                (Some (now + v2.timeout r)%Z))) rest) |}
                  {| lj.items := []; lj.cap := N.to_nat (N.of_nat (length evs)) |}
                  (v2.set_conn r
                     (snd (v2.SetReadDeadline
                             (snd (v2.SetReadDeadline (v2.conn r) None))
                             (Some (now + v2.timeout r)%Z))), h))
    end.
    destruct (v2.readEvents _ _ _ _ _ _) as [o1 s1]. cbn [fst] in Ho. by subst o1. }
  split.
  - intros Herr. apply Hlift.
    rewrite readEvents_compressed_step by (done || (cbn; lia)).
    unfold v2.bind, v2.lift. by rewrite Herr.
  - intros z junk Hz Hplain Hclose. apply Hlift.
    rewrite readEvents_compressed_step by (done || (cbn; lia)).
    unfold v2.bind at 1. unfold v2.bind at 1. unfold v2.lift at 1.
    rewrite Hz. unfold v2.bind at 1.
    destruct (zlib.plain z) as [pl pfin] eqn:Hpl_eq. cbn [io.avail] in Hplain.
    subst pl.
    destruct (readEvents_completes codes NewReader codes_distinct n inner evs Hc
                fuel junk pfin [] (N.to_nat (N.of_nat (length evs)))
                (v2.set_conn r
                   (snd (v2.SetReadDeadline (snd (v2.SetReadDeadline (v2.conn r) None))
                           (Some (now + v2.timeout r)%Z))), h))
      as (new & s' & -> & _); [lia|done|cbn; lia|].
    cbn [io.avail]. rewrite length_app.
    replace (length inner + length junk - length junk) with (length inner) by lia.
    by rewrite Hclose.
Qed.

End Compressed2.

(** ** One call after the other *)

Section Calls.

Context (codes : protocol.Codes) (NewReader : zlib.NewReaderT).

Hypothesis codes_distinct :
  protocol.CodeJSONDataFrame codes ≠ protocol.CodeCompressed codes.

(** X9. Windows that follow each other on one connection are answered
    one per call: for a window with its events, a zero window and
    another window with its events, three calls return the first batch,
    the nil batch and the second batch, each call leaving the stream at
    the next window; and after the third call both batches read as the
    payloads that were on the wire. *)
Theorem windows_one_per_call fuel now1 now2 now3 n1 bs1 evs1 n2 bs2 evs2 rest r h :
  wf (r, h) →
  v2.deadline_fault (v2.conn r) = None →
  completes codes NewReader n1 bs1 evs1 →
  completes codes NewReader n2 bs2 evs2 →
  n1 ≤ fuel → n2 ≤ fuel →
  (N.of_nat (length evs1) < 2 ^ 32)%N →
  (N.of_nat (length evs2) < 2 ^ 32)%N →
  let second := frames.window codes (N.of_nat (length evs2)) ++ bs2 ++ rest in
  let beat := frames.window codes 0 ++ second in
  ∃ b1 s1 s2 b2 s3,
    v2.ReadBatch codes NewReader fuel now1
      (frames.window codes (N.of_nat (length evs1)) ++ bs1 ++ beat) (r, h)
    = (Ok (Some b1, beat), s1)
    ∧ v2.ReadBatch codes NewReader fuel now2 beat s1 = (Ok (None, second), s2)
    ∧ v2.ReadBatch codes NewReader fuel now3 second s2 = (Ok (Some b2, rest), s3)
    ∧ payloads (snd s3) b1 = evs1
    ∧ payloads (snd s3) b2 = evs2.
Proof.
  intros Hwf Hf Hc1 Hc2 Hn1 Hn2 HK1 HK2. cbn zeta.
  set (second := frames.window codes (N.of_nat (length evs2)) ++ bs2 ++ rest).
  set (beat := frames.window codes 0 ++ second).
  destruct (completes_nonempty _ _ _ _ _ Hc1) as [Hne1 _].
  destruct (window_then_completes codes NewReader codes_distinct fuel now1 n1 bs1 evs1
              beat r h Hwf Hf Hc1 Hn1 HK1) as (b1 & s1 & Hrun1 & Hpay1 & _).
  destruct (ReadBatch_sound _ _ _ _ _ _ _ _ Hwf Hrun1) as (Hwf1 & _ & Hpost1).
  destruct (Hpost1 _ _ eq_refl) as (Hnew1 & _).
  pose proof (ReadBatch_conn_nonzero codes NewReader fuel now1
                (N.of_nat (length evs1)) (bs1 ++ beat) r h) as Hconn.
  rewrite Hrun1 in Hconn. cbn [fst snd] in Hconn.
  destruct s1 as [r1 h1]. cbn [fst snd] in *.
  assert (v2.deadline_fault (v2.conn r1) = None) as Hf1
      by (rewrite Hconn by lia; exact Hf).
  pose proof (ReadBatch_zero_window codes NewReader fuel now2 second r1 h1) as Hrun2.
  set (r2 := v2.set_conn r1 (snd (v2.SetReadDeadline (v2.conn r1) None))) in *.
  assert (wf (r2, h1)) as Hwf2 by exact Hwf1.
  assert (v2.deadline_fault (v2.conn r2) = None) as Hf2 by exact Hf1.
  destruct (window_then_completes codes NewReader codes_distinct fuel now3 n2 bs2 evs2
              rest r2 h1 Hwf2 Hf2 Hc2 Hn2 HK2) as (b2 & s3 & Hrun3 & Hpay3 & _).
  destruct (ReadBatch_sound _ _ _ _ _ _ _ _ Hwf2 Hrun3) as (_ & Hext3 & _).
  exists b1, (r1, h1), (r2, h1), b2, s3. split_and!; try done.
  rewrite <-Hpay1. unfold payloads. apply List.map_ext_Forall.
  eapply Forall_impl; [exact Hnew1|]. intros e (Hout & _).
  by apply (load_extends (r2, h1) s3 e Hext3).
Qed.

(** X12. A batch that [ReadBatch] returns has not been acknowledged:
    its channel is open, so observers of [Await] block until the caller
    calls [ACK], and that first [ACK] returns. *)
Theorem returned_batch_awaits_ack fuel now wire s b rest s' n :
  v2.ReadBatch codes NewReader fuel now wire s = (Ok (Some b, rest), s') →
  lj.ack b = lj.Open
  ∧ lj.run b (replicate n lj.DoAwait ++ [lj.DoACK])
    = replicate n lj.Blocked ++ [lj.Acked].
Proof.
  destruct s as [r h]. rewrite ReadBatch_unfold. cbn zeta.
  destruct (v2.readFull _ 6) as [[win in1]| | |]; try done.
  destruct (bool_decide _ && bool_decide _); [done|].
  case_decide; [done|].
  destruct (v2.deadline_fault (v2.conn r)); [done|].
  unfold v2.bind.
  destruct (v2.readEvents _ _ _ _ _ _) as [[[events in2]| | |] s1]; try done.
  intros [= <- <- <-]. split; [done|]. by rewrite run_blocked_then.
Qed.

End Calls.

(** ** The buffer and the allocations *)

(** X11. What a data frame costs in allocations: a data frame that is
    all there adds to the heap one array for the copy of its payload,
    none when the payload is empty (the event is then the nil slice),
    and one more for the buffer only when the payload is longer than
    the buffer. *)
Theorem data_frame_allocations inp s :
  let n := N.to_nat (binary.Uint32 (drop 4 (take 8 (io.avail inp)))) in
  8 + n ≤ length (io.avail inp) →
  ∃ ev s',
    v2.readJSONEvent inp s = (Ok (ev, io.advance (8 + n) inp), s')
    ∧ length (snd s')
      = length (snd s)
        + (if decide (mem.len (v2.buf (fst s)) < n) then 1 else 0)
        + (if decide (n = 0) then 0 else 1)
    ∧ (mem.ptr ev = None ↔ n = 0).
Proof.
  cbn zeta. intros Hn. destruct s as [r h].
  unfold v2.readJSONEvent. unfold v2.bind at 1. unfold v2.lift at 1.
  unfold v2.readFull, io.ReadFull. rewrite decide_True by lia.
  set (n := N.to_nat (binary.Uint32 (drop 4 (take 8 (io.avail inp))))) in *.
  unfold v2.bind at 1. unfold v2.growBuf, mem.make. cbn [fst snd].
  set (r1 := if decide (mem.len (v2.buf r) < n)
             then v2.set_buf r {| mem.ptr := Some (length h); mem.len := n |}
             else r).
  set (h1 := if decide (mem.len (v2.buf r) < n)
             then h ++ [replicate n x00] else h).
  assert (length h1 = length h + (if decide (mem.len (v2.buf r) < n) then 1 else 0))
    as Hh1.
  { subst h1. case_decide; [rewrite length_app; cbn|]; lia. }
  replace (if decide (mem.len (v2.buf r) < n)
           then (Ok (), (v2.set_buf r {| mem.ptr := Some (length h); mem.len := n |},
                         h ++ [replicate n x00]))
           else (Ok (), (r, h)))
    with (@Ok unit (), (r1, h1)) by (subst r1 h1; by case_decide).
  unfold v2.bind at 1. unfold v2.getBuf at 1. cbn [fst snd].
  unfold v2.bind at 1. unfold v2.readFullAt at 1. unfold io.ReadFull.
  cbn [mem.len mem.reslice io.avail io.advance io.fin].
  rewrite decide_True by (rewrite length_drop; lia).
  unfold v2.bind at 1. unfold v2.copyOut at 1. unfold mem.clone.
  cbn [mem.len mem.reslice].
  set (h2 := mem.store h1 _ _).
  assert (length h2 = length h1) as Hh2.
  { subst h2. unfold mem.store. cbn [mem.ptr mem.reslice].
    destruct (mem.ptr (v2.buf r1)); [apply length_alter|done]. }
  assert (io.advance n (io.advance 8 inp) = io.advance (8 + n) inp) as ->
      by (unfold io.advance; cbn [io.avail io.fin]; by rewrite drop_drop).
  clearbody h2 h1 r1. clearbody n. destruct n as [|n'].
  - eexists _, _. split; [reflexivity|].
    cbn [fst snd mem.ptr mem.nil_slice].
    rewrite (decide_True (P := 0 = 0)) by done.
    split; [lia|done].
  - eexists _, _. split; [reflexivity|].
    cbn [fst snd mem.ptr].
    rewrite (decide_False (P := S n' = 0)) by done.
    rewrite length_app. cbn [length]. split; [lia|done].
Qed.

(** A step of the frame readers that keeps a property of the state. *)
Lemma readEvents_keeps codes NewReader (I : v2.state → Prop) :
  (∀ inp s, I s → I (snd (v2.readJSONEvent inp s))) →
  ∀ fuel inp evs s, I s → I (snd (v2.readEvents codes NewReader fuel inp evs s)).
Proof.
  intros Hj. induction fuel as [|fuel IH]; intros inp evs s Hs.
  - cbn. by case_decide.
  - rewrite readEvents_round. case_decide; [|done].
    unfold v2.bind, v2.lift.
    destruct (v2.readFull inp 2) as [[hdr in1]| | |]; try done.
    case_decide; [done|]. case_decide.
    { specialize (Hj in1 s Hs).
      destruct (v2.readJSONEvent in1 s) as [[[ev in2]| | |] s1]; try done.
      by apply IH. }
    case_decide; [|done].
    assert (I (snd (v2.readCompressed codes NewReader fuel in1 evs s))) as Hc.
    { unfold v2.readCompressed, v2.readCompressedWith, v2.bind, v2.lift.
      destruct (v2.readFull in1 4) as [[hdr4 in4]| | |]; try done.
      destruct (NewReader _) as [z| | |]; try done.
      specialize (IH (zlib.plain z) evs s Hs).
      destruct (v2.readEvents codes NewReader fuel (zlib.plain z) evs s)
        as [[[ev1 rest1]| | |] s1]; try done.
      destruct (zlib.Close z _); [done|].
      by destruct (v2.drain _ _). }
    destruct (v2.readCompressed codes NewReader fuel in1 evs s)
      as [[[ev1 in2]| | |] s1]; try done.
    by apply IH.
Qed.

Lemma readJSONEvent_spare a inp s :
  spare a s → spare a (snd (v2.readJSONEvent inp s)).
Proof.
  destruct s as [r h]. intros (Ha & Hz & Hb). cbn [fst snd] in *.
  unfold v2.readJSONEvent. unfold v2.bind at 1. unfold v2.lift at 1.
  destruct (v2.readFull inp 8) as [[hdr in1]| | |]; try done.
  set (n := N.to_nat (binary.Uint32 (drop 4 hdr))).
  unfold v2.bind at 1.
  assert (∃ r1 h1,
    v2.growBuf n (r, h) = (Ok (), (r1, h1))
    ∧ spare a (r1, h1)
    ∧ (mem.ptr (v2.buf r1) = Some a → n = 0)) as (r1 & h1 & -> & Hs1 & Hn1).
  { unfold v2.growBuf, mem.make. case_decide as Hlt.
    - eexists _, _. split; [reflexivity|]. split.
      + split_and!; cbn [fst snd v2.buf v2.set_buf mem.ptr mem.len].
        * rewrite length_app. lia.
        * by rewrite lookup_total_app_l.
        * intros [= <-]. lia.
      + cbn. intros [= <-]. lia.
    - eexists _, _. split; [reflexivity|]. split; [done|].
      intros Hp. specialize (Hb Hp). lia. }
  destruct Hs1 as (Ha1 & Hz1 & Hb1). cbn [fst snd] in *.
  unfold v2.bind at 1. unfold v2.getBuf at 1. cbn [fst snd].
  unfold v2.bind at 1. unfold v2.readFullAt at 1.
  cbn [mem.len mem.reslice].
  destruct (io.ReadFull in1 n) as [got res] eqn:Hread.
  assert (length got ≤ n) as Hgot.
  { unfold io.ReadFull in Hread. injection Hread as <- _. rewrite length_take. lia. }
  set (h2 := mem.store h1 _ got).
  assert (spare a (r1, h2)) as (Ha2 & Hz2 & Hb2).
  { subst h2. unfold mem.store. cbn [mem.ptr mem.reslice].
    destruct (mem.ptr (v2.buf r1)) as [p|] eqn:Hp; [|split_and!; cbn [fst snd]; [done|done|by rewrite Hp]].
    split_and!; cbn [fst snd]; [by rewrite length_alter| |by rewrite Hp].
    destruct (decide (p = a)) as [->|Hne].
    - rewrite list_lookup_total_alter_eq by done.
      rewrite (Hn1 eq_refl) in Hgot. destruct got; [|cbn in Hgot; lia].
      by rewrite drop_0.
    - by rewrite list_lookup_total_alter_ne. }
  cbn [fst snd] in *.
  destruct res as [in2| | |]; try done.
  unfold v2.bind at 1. unfold v2.copyOut at 1. unfold mem.clone.
  cbn [mem.len mem.reslice].
  destruct n as [|n']; cbn [fst snd v2.ret]; [done|].
  split_and!; cbn [fst snd]; [rewrite length_app; lia| |done].
  by rewrite lookup_total_app_l.
Qed.

(** X10. The 64 bytes of capacity [newReader] sets aside are never used:
    the array stays zero through any call of [ReadBatch], the buffer has
    no length as long as it lies there, and the first payload that is
    not empty moves the buffer to an array of its own. *)
Theorem initial_array_never_used codes NewReader :
  (∀ c to d h, spare (length h) (v2.newReader c to d h))
  ∧ (∀ a fuel now wire s,
       spare a s → spare a (snd (v2.ReadBatch codes NewReader fuel now wire s)))
  ∧ (∀ a inp s,
       spare a s →
       mem.ptr (v2.buf (fst s)) = Some a →
       8 ≤ length (io.avail inp) →
       N.to_nat (binary.Uint32 (drop 4 (take 8 (io.avail inp)))) ≠ 0 →
       mem.ptr (v2.buf (fst (snd (v2.readJSONEvent inp s)))) = Some (length (snd s))).
Proof.
  split_and!.
  - intros c to d h. unfold spare, v2.newReader, mem.make.
    cbn [fst snd v2.buf mem.ptr mem.len]. rewrite length_app. cbn [length].
    split_and!; [lia| |done]. by rewrite list_lookup_total_middle.
  - intros a fuel now wire [r h] Hs. rewrite ReadBatch_unfold. cbn zeta.
    set (c1 := snd (v2.SetReadDeadline (v2.conn r) None)).
    destruct (v2.readFull _ 6) as [[win in1]| | |]; try done.
    destruct (bool_decide _ && bool_decide _); [done|].
    case_decide; [done|].
    destruct (v2.deadline_fault (v2.conn r)); [done|].
    set (c2 := snd (v2.SetReadDeadline c1 _)).
    unfold v2.bind.
    pose proof (readEvents_keeps codes NewReader (spare a) (readJSONEvent_spare a)
                  fuel (v2.conn_reader c2 (io.avail in1))
                  {| lj.items := []; lj.cap := N.to_nat (binary.Uint32 (drop 2 win)) |}
                  (v2.set_conn r c2, h) Hs) as Hk.
    by destruct (v2.readEvents _ _ _ _ _ _) as [[[events in2]| | |] s1].
  - intros a inp [r h] (Ha & Hz & Hb) Hp H8 Hn. cbn [fst snd] in *.
    specialize (Hb Hp).
    unfold v2.readJSONEvent. unfold v2.bind at 1. unfold v2.lift at 1.
    unfold v2.readFull, io.ReadFull. rewrite decide_True by done.
    unfold v2.bind at 1. unfold v2.growBuf, mem.make.
    rewrite decide_True by lia.
    unfold v2.bind at 1. unfold v2.getBuf at 1. cbn [fst snd].
    unfold v2.bind at 1. unfold v2.readFullAt at 1.
    destruct (io.ReadFull _ _) as [got [in2| | |]]; try done.
    unfold v2.bind at 1. unfold v2.copyOut at 1.
    by destruct (mem.clone _ _).
Qed.

(** ** The further properties on the examples *)

Lemma pair_bounds :
  Forall (λ ev : N * list byte,
            (fst ev < 2 ^ 32)%N ∧ (N.of_nat (length (snd ev)) < 2 ^ 32)%N)
    [(1%N, a1); (2%N, b22)].
Proof. repeat constructor; vm_compute; reflexivity. Qed.

Lemma short_batch_fails_witness :
  fst (v2.ReadBatch L zlib.stored 5 0
         (frames.window L 3 ++ frames.data_frames L [(1%N, a1); (2%N, b22)])
         (fresh closing_conn))
  = Err EOF.
Proof.
  apply (short_batch_fails L zlib.stored 5 0 3 [(1%N, a1); (2%N, b22)]
           (fst (fresh closing_conn)) (snd (fresh closing_conn))
           (fresh_wf closing_conn) eq_refl pair_bounds);
    [vm_compute; reflexivity|cbn; lia|cbn; lia].
Defined.

Lemma cut_frame_fails_witness :
  fst (v2.ReadBatch L zlib.stored 5 0
         (frames.window L 3 ++ frames.data_frames L [(1%N, a1); (2%N, b22)]
          ++ take 10 (frames.data L 3 a1))
         (fresh closing_conn))
  = Err EOF
  ∧ fst (v2.ReadBatch L zlib.stored 5 0
           (frames.window L 3 ++ frames.data_frames L [(1%N, a1); (2%N, b22)]
            ++ take 11 (frames.data L 3 a1))
           (fresh closing_conn))
    = Err ErrUnexpectedEOF.
Proof.
  split.
  - apply (cut_frame_fails L zlib.stored 5 0 3 [(1%N, a1); (2%N, b22)] 3 a1 10
             (fst (fresh closing_conn)) (snd (fresh closing_conn))
             (fresh_wf closing_conn) eq_refl eq_refl pair_bounds);
      [vm_compute; reflexivity|cbn; lia|cbn; lia|vm_compute; reflexivity|cbn; lia].
  - apply (cut_frame_fails L zlib.stored 5 0 3 [(1%N, a1); (2%N, b22)] 3 a1 11
             (fst (fresh closing_conn)) (snd (fresh closing_conn))
             (fresh_wf closing_conn) eq_refl eq_refl pair_bounds);
      [vm_compute; reflexivity|cbn; lia|cbn; lia|vm_compute; reflexivity|cbn; lia].
Defined.

Lemma closed_before_window_witness :
  fst (v2.ReadBatch L zlib.stored 5 0 [] (fresh closing_conn)) = Err EOF
  ∧ fst (v2.ReadBatch L zlib.stored 5 0 [x32; x57; x00] (fresh closing_conn))
    = Err ErrUnexpectedEOF.
Proof.
  split.
  - apply (closed_before_window L zlib.stored 5 0 []
             (fst (fresh closing_conn)) (snd (fresh closing_conn)) eq_refl).
    cbn. lia.
  - apply (closed_before_window L zlib.stored 5 0 [x32; x57; x00]
             (fst (fresh closing_conn)) (snd (fresh closing_conn)) eq_refl).
    cbn. lia.
Defined.

Lemma bad_frame_is_protocol_error_witness :
  fst (v2.ReadBatch L zlib.stored 5 0
         (frames.window L 3 ++ frames.data_frames L [(1%N, a1); (2%N, b22)]
          ++ x31 :: x4a :: drop 2 (frames.data L 3 a1))
         (fresh plain_conn))
  = Err ErrProtocolError
  ∧ fst (v2.ReadBatch L zlib.stored 5 0
           (frames.window L 3 ++ frames.data_frames L [(1%N, a1); (2%N, b22)]
            ++ x32 :: x57 :: binary.PutUint32 3)
           (fresh plain_conn))
    = Err ErrProtocolError.
Proof.
  split.
  - apply (bad_frame_is_protocol_error L zlib.stored 5 0 3 [(1%N, a1); (2%N, b22)]
             x31 x4a (drop 2 (frames.data L 3 a1))
             (fst (fresh plain_conn)) (snd (fresh plain_conn))
             (fresh_wf plain_conn) eq_refl pair_bounds);
      [vm_compute; reflexivity|cbn; lia|cbn; lia|left; discriminate].
  - apply (bad_frame_is_protocol_error L zlib.stored 5 0 3 [(1%N, a1); (2%N, b22)]
             x32 x57 (binary.PutUint32 3)
             (fst (fresh plain_conn)) (snd (fresh plain_conn))
             (fresh_wf plain_conn) eq_refl pair_bounds);
      [vm_compute; reflexivity|cbn; lia|cbn; lia|right; split; discriminate].
Defined.

Lemma sequence_numbers_ignored_witness :
  v2.ReadBatch L zlib.stored 5 0
    (frames.window L 2 ++ frames.data_frames L [(1%N, a1); (2%N, b22)] ++ [x32])
    (fresh plain_conn)
  = v2.ReadBatch L zlib.stored 5 0
      (frames.window L 2 ++ frames.data_frames L [(7%N, a1); (7%N, b22)] ++ [x32])
      (fresh plain_conn).
Proof.
  apply (sequence_numbers_ignored L zlib.stored 5 0 2
           [(1%N, a1); (2%N, b22)] [(7%N, a1); (7%N, b22)] [x32] (fresh plain_conn)).
  - repeat constructor.
  - repeat constructor; vm_compute; reflexivity.
  - vm_compute; reflexivity.
  - cbn. lia.
Defined.

Lemma deadline_fault_fails_witness :
  let s := v2.newReader faults.faulty_conn 30 accept_all [] in
  fst (v2.ReadBatch L zlib.stored 5 0 (frames.window L 2 ++ two_plain) s)
  = Err (ErrOther 7)
  ∧ fst (v2.ReadBatch L zlib.stored 5 0 (frames.window L 0 ++ two_plain) s)
    = Ok (None, two_plain).
Proof.
  cbn zeta. split.
  - apply (deadline_fault_fails L zlib.stored 5 0 2 two_plain
             (fst (v2.newReader faults.faulty_conn 30 accept_all []))
             (snd (v2.newReader faults.faulty_conn 30 accept_all []))
             (ErrOther 7) eq_refl).
    vm_compute; reflexivity.
  - apply (deadline_fault_fails L zlib.stored 5 0 0 two_plain
             (fst (v2.newReader faults.faulty_conn 30 accept_all []))
             (snd (v2.newReader faults.faulty_conn 30 accept_all []))
             (ErrOther 7) eq_refl).
    vm_compute; reflexivity.
Defined.

Lemma surplus_events_dropped_witness :
  ∃ b s',
    v2.ReadBatch L zlib.stored 5 0
      (frames.window L 1 ++ frames.compressed L (zlib.store_block two_plain) ++ [x32])
      (fresh plain_conn)
    = (Ok (Some b, [x32]), s')
    ∧ payloads (snd s') b = [a1].
Proof.
  eassert (zlib.stored {| io.avail := zlib.store_block two_plain;
                          io.fin := io.Fails EOF |} = Ok _) as Hz
    by (vm_compute; reflexivity).
  refine (surplus_events_dropped L zlib.stored lumberjack2_distinct 5 0
            [(1%N, a1)] [(2%N, b22)] (zlib.store_block two_plain) [x32]
            (fst (fresh plain_conn)) (snd (fresh plain_conn)) _ []
            (fresh_wf plain_conn) eq_refl _ _ _ _ Hz _ _ _);
    [done|repeat constructor; vm_compute; reflexivity|vm_compute; reflexivity
    |vm_compute; reflexivity|vm_compute; reflexivity
    |vm_compute; reflexivity|cbn; lia].
Defined.

Lemma sparse_compressed_frame_fails_witness :
  fst (v2.ReadBatch L zlib.stored 5 0
         (frames.window L 3 ++ frames.data_frames L []
          ++ frames.compressed L (zlib.store_block two_plain) ++ frames.data L 3 a1)
         (fresh plain_conn))
  = Err EOF.
Proof.
  eassert (zlib.stored {| io.avail := zlib.store_block two_plain;
                          io.fin := io.Fails EOF |} = Ok _) as Hz
    by (vm_compute; reflexivity).
  refine (sparse_compressed_frame_fails L zlib.stored lumberjack2_distinct 5 0 3
            [] [(1%N, a1); (2%N, b22)] (zlib.store_block two_plain) (frames.data L 3 a1)
            (fst (fresh plain_conn)) (snd (fresh plain_conn)) _
            (fresh_wf plain_conn) eq_refl (Forall_nil_2 _) pair_bounds _ _ _ Hz _ _);
    [vm_compute; reflexivity|vm_compute; reflexivity|cbn; lia
    |vm_compute; reflexivity|cbn; lia].
Defined.

Lemma zlib_errors_fail_the_batch_witness :
  fst (v2.ReadBatch L zlib.stored 5 0
         (frames.window L 1 ++ frames.compressed L [x00; x00] ++ [x32])
         (fresh plain_conn))
  = Err zlib.ErrHeader
  ∧ fst (v2.ReadBatch L zlib.stored 5 0
           (frames.window L 1
            ++ frames.compressed L (faults.bad_checksum (frames.data L 1 a1)) ++ [x32])
           (fresh plain_conn))
    = Err zlib.ErrChecksum.
Proof.
  assert (completes L zlib.stored 1 (frames.data L 1 a1) [a1]) as Hc
    by (apply completes_last; vm_compute; reflexivity).
  split.
  - apply (zlib_errors_fail_the_batch L zlib.stored lumberjack2_distinct 5 0 1
             (frames.data L 1 a1) [a1] [x00; x00] [x32]
             (fst (fresh plain_conn)) (snd (fresh plain_conn)) zlib.ErrHeader
             (fresh_wf plain_conn) eq_refl);
      [vm_compute; reflexivity|vm_compute; reflexivity|exact Hc|lia
      |vm_compute; reflexivity].
  - eassert (zlib.stored {| io.avail := faults.bad_checksum (frames.data L 1 a1);
                            io.fin := io.Fails EOF |} = Ok _) as Hz
      by (vm_compute; reflexivity).
    refine (proj2 (zlib_errors_fail_the_batch L zlib.stored lumberjack2_distinct 5 0 1
                     (frames.data L 1 a1) [a1]
                     (faults.bad_checksum (frames.data L 1 a1)) [x32]
                     (fst (fresh plain_conn)) (snd (fresh plain_conn)) zlib.ErrChecksum
                     (fresh_wf plain_conn) eq_refl _ _ Hc _) _ [] Hz _ _);
      [vm_compute; reflexivity|vm_compute; reflexivity|lia
      |vm_compute; reflexivity|vm_compute; reflexivity].
Defined.

Lemma readCompressed_needs_the_bytes_witness :
  let inp := v2.conn_reader plain_conn (drop 2 two_compressed ++ [x32]) in
  4 ≤ length (io.avail inp)
  ∧ (4 + N.to_nat (binary.Uint32 (take 4 (io.avail inp))) ≤ length (io.avail inp)
     ∨ io.fin inp = io.Fails EOF).
Proof.
  cbn zeta.
  eassert (v2.readCompressed L zlib.stored 5
             (v2.conn_reader plain_conn (drop 2 two_compressed ++ [x32]))
             {| lj.items := []; lj.cap := 2 |} (fresh plain_conn)
           = (Ok (_, _), _)) as Hrun by (vm_compute; reflexivity).
  exact (readCompressed_needs_the_bytes L zlib.stored 5 _ _ _ _ _ _ Hrun).
Defined.

Lemma two_plain_completes :
  completes L zlib.stored 2 two_plain [a1; b22].
Proof.
  apply completes_data; [vm_compute; reflexivity..|].
  apply completes_last; vm_compute; reflexivity.
Qed.

Lemma windows_one_per_call_witness :
  let second := frames.window L 2 ++ two_plain ++ [x32] in
  let beat := frames.window L 0 ++ second in
  ∃ b1 s1 s2 b2 s3,
    v2.ReadBatch L zlib.stored 5 0
      (frames.window L 2 ++ plain_then_compressed ++ beat) (fresh plain_conn)
    = (Ok (Some b1, beat), s1)
    ∧ v2.ReadBatch L zlib.stored 5 1 beat s1 = (Ok (None, second), s2)
    ∧ v2.ReadBatch L zlib.stored 5 2 second s2 = (Ok (Some b2, [x32]), s3)
    ∧ payloads (snd s3) b1 = [a1; b22]
    ∧ payloads (snd s3) b2 = [a1; b22].
Proof.
  apply (windows_one_per_call L zlib.stored lumberjack2_distinct 5 0 1 2
           3 plain_then_compressed [a1; b22] 2 two_plain [a1; b22] [x32]
           (fst (fresh plain_conn)) (snd (fresh plain_conn))
           (fresh_wf plain_conn) eq_refl
           plain_then_compressed_completes two_plain_completes);
    [lia|lia|vm_compute; reflexivity|vm_compute; reflexivity].
Defined.

Lemma returned_batch_awaits_ack_witness :
  ∃ b rest s',
    v2.ReadBatch L zlib.stored 5 0 (frames.window L 2 ++ two_plain) (fresh plain_conn)
    = (Ok (Some b, rest), s')
    ∧ lj.ack b = lj.Open
    ∧ lj.run b [lj.DoAwait; lj.DoAwait; lj.DoACK]
      = [lj.Blocked; lj.Blocked; lj.Acked].
Proof.
  eassert (v2.ReadBatch L zlib.stored 5 0 (frames.window L 2 ++ two_plain)
             (fresh plain_conn)
           = (Ok (Some _, _), _)) as Hrun by (vm_compute; reflexivity).
  eexists _, _, _. split; [exact Hrun|].
  exact (returned_batch_awaits_ack L zlib.stored 5 0 _ _ _ _ _ 2 Hrun).
Defined.

Lemma data_frame_allocations_witness :
  let inp := v2.conn_reader plain_conn (drop 2 (frames.data L 1 a1) ++ [x32]) in
  ∃ ev s',
    v2.readJSONEvent inp (fresh plain_conn) = (Ok (ev, io.advance 15 inp), s')
    ∧ length (snd s') = 3
    ∧ (mem.ptr ev = None ↔ 7 = 0).
Proof.
  cbn zeta.
  apply (data_frame_allocations
           (v2.conn_reader plain_conn (drop 2 (frames.data L 1 a1) ++ [x32]))
           (fresh plain_conn)).
  vm_compute. lia.
Defined.

Lemma initial_array_never_used_witness :
  spare 0 (fresh plain_conn)
  ∧ spare 0 (snd (v2.ReadBatch L zlib.stored 5 0 (frames.window L 2 ++ two_plain)
                    (fresh plain_conn)))
  ∧ mem.ptr (v2.buf (fst (snd (v2.readJSONEvent
                                 (v2.conn_reader plain_conn (drop 2 (frames.data L 1 a1)))
                                 (fresh plain_conn)))))
    = Some 1.
Proof.
  destruct (initial_array_never_used L zlib.stored) as (Hnew & Hkeep & Hmove).
  pose proof (Hnew plain_conn 30%Z accept_all []) as H0.
  split; [exact H0|]. split.
  - exact (Hkeep 0 5 0%Z (frames.window L 2 ++ two_plain) (fresh plain_conn) H0).
  - apply (Hmove 0 (v2.conn_reader plain_conn (drop 2 (frames.data L 1 a1)))
             (fresh plain_conn) H0 eq_refl); [vm_compute; lia|vm_compute; lia].
Defined.
